(** * AM numeric facilities: angles, rounded numbers, approximate equality

    A shallow embedding of [include/angle.h], [include/rounded.h],
    [include/equality.h] and [include/dual_quaternion.h].

    The C++ code is generic in its arithmetic type [T].  The embedding keeps
    that genericity through the class [Number], which lists the operations
    the headers use on [T].  The class has two instances with exact
    arithmetic and three instances for arithmetic types of C++:

    - [Z] stands for an integral type where its arithmetic is exact: no
      operation overflows, and every value that goes through a [<cmath>]
      function, or through the [double] arithmetic on its result, has a
      magnitude of at most [2 ^ 53], so that [double] holds it;
    - [Q] stands for a real-valued type where its arithmetic is exact: no
      rounding error, no infinity, no NaN; an operation that would yield
      one of the latter returns [None];
    - [long_long] is the 64-bit signed integer; the [<cmath>] functions
      convert its values to [double], which rounds above [2 ^ 53];
    - [unsigned_int] is the 32-bit unsigned integer, with its arithmetic
      modulo [2 ^ 32];
    - [double] is the IEEE 754 binary64 type, with rounding, signed zeros,
      infinities and NaN.

    The facts proved for [Z] and [Q] hold of the code under the conditions
    just named; [long_long], [unsigned_int] and [double] show what the code
    does outside them.

    An operation with no defined result (an integer division by zero, the
    conversion of a NaN to an integer, [%] on a non-integral type) returns
    [None]. *)

From Stdlib Require Import Floats.
From Stdlib Require Import ZArith QArith Qround Qabs List Bool Lia Lqa.
Import ListNotations.

Declare Scope num_scope.
Delimit Scope num_scope with num.

(** ** The option monad used for partial operations *)

Definition bind {A B : Type} (c : option A) (k : A -> option B) : option B :=
  match c with
  | Some a => k a
  | None => None
  end.

Notation "x <- c ;; k" := (bind c (fun x => k))
  (at level 61, c at next level, right associativity).

(** ** Arithmetic types *)

(** The operations of an arithmetic type [T] that the three headers use:
    [is_integral<T>], the conversion [T(n)] of an integer literal,
    [std::numeric_limits<T>::epsilon()], the built-in operators, and the
    [<cmath>] functions [fmod], [remainder], [nearbyint] and [abs].

    The [<cmath>] functions compute in a floating-point type [F]: [T]
    itself when [T] is one, [double] when [T] is integral.  [fmod],
    [remainder] and [nearbyint] give the result of the call on arguments of
    type [T], a value of [F], held in [T]; [promote x] is [T(F(x))], the
    value [x] converted to [F] and back. *)
Class Number (T : Type) : Type := {
  is_integral : bool;
  of_int : Z -> T;
  epsilon : T;
  add : T -> T -> T;
  sub : T -> T -> T;
  mul : T -> T -> T;
  div : T -> T -> option T;
  modulo : T -> T -> option T;
  neg : T -> T;
  eqb : T -> T -> bool;
  ltb : T -> T -> bool;
  leb : T -> T -> bool;
  fmod : T -> T -> option T;
  remainder : T -> T -> option T;
  nearbyint : T -> T;
  abs : T -> T;
  promote : T -> T
}.

Infix "+" := add : num_scope.
Infix "-" := sub : num_scope.
Infix "*" := mul : num_scope.
Notation "- x" := (neg x) : num_scope.
Infix "==" := eqb (at level 70, no associativity) : num_scope.
Infix "<" := ltb : num_scope.
Infix "<=" := leb : num_scope.
Notation "x > y" := (ltb y x) : num_scope.
Notation "x >= y" := (leb y x) : num_scope.

(** *** Integral types *)

(** The integer nearest to the quotient [x / y], ties going to the even
    integer: the quotient that IEEE [remainder] subtracts. *)
Definition Znearest_quot (x y : Z) : Z :=
  let q := (x / y)%Z in
  let r := (x mod y)%Z in
  match (2 * Z.abs r ?= Z.abs y)%Z with
  | Lt => q
  | Gt => (q + 1)%Z
  | Eq => if Z.even q then q else (q + 1)%Z
  end.

Definition Zdiv_opt (x y : Z) : option Z :=
  if (y =? 0)%Z then None else Some (Z.quot x y).

Definition Zmod_opt (x y : Z) : option Z :=
  if (y =? 0)%Z then None else Some (Z.rem x y).

(** [std::fmod] of two integers that are [double] values: the truncating
    remainder, with the sign of [x], which IEEE 754 computes without
    rounding.  A zero divisor gives NaN, which no integer holds. *)
Definition Zfmod (x y : Z) : option Z :=
  if (y =? 0)%Z then None else Some (Z.rem x y).

(** [std::remainder] of two integers that are [double] values: [x] minus
    the multiple of [y] nearest to it, computed without rounding too. *)
Definition Zremainder (x y : Z) : option Z :=
  if (y =? 0)%Z then None else Some (x - Znearest_quot x y * y)%Z.

#[global] Instance Z_Number : Number Z := {|
  is_integral := true;
  of_int := fun n => n;
  epsilon := 0%Z;
  add := Z.add;
  sub := Z.sub;
  mul := Z.mul;
  div := Zdiv_opt;
  modulo := Zmod_opt;
  neg := Z.opp;
  eqb := Z.eqb;
  ltb := Z.ltb;
  leb := Z.leb;
  fmod := Zfmod;
  remainder := Zremainder;
  nearbyint := fun x => x;
  abs := Z.abs;
  promote := fun x => x
|}.

(** *** Real-valued types, with exact arithmetic *)

Definition Qltb (x y : Q) : bool := negb (Qle_bool y x).

(** Truncation toward zero. *)
Definition Qtrunc (x : Q) : Z :=
  if Qle_bool 0 x then Qfloor x else Qceiling x.

(** Rounding to the nearest integer, ties to even ([nearbyint] in the
    default rounding mode). *)
Definition Qnearest (x : Q) : Z :=
  let f := Qfloor x in
  match ((x - inject_Z f) ?= (1 # 2))%Q with
  | Lt => f
  | Gt => (f + 1)%Z
  | Eq => if Z.even f then f else (f + 1)%Z
  end.

Definition Qdiv_opt (x y : Q) : option Q :=
  if Qeq_bool y 0 then None else Some (x / y)%Q.

Definition Qfmod (x y : Q) : option Q :=
  if Qeq_bool y 0 then None else Some (x - inject_Z (Qtrunc (x / y)) * y)%Q.

Definition Qremainder (x y : Q) : option Q :=
  if Qeq_bool y 0 then None else Some (x - inject_Z (Qnearest (x / y)) * y)%Q.

(** [DBL_EPSILON], the machine epsilon of [double]. *)
Definition Qepsilon : Q := 1 # (2 ^ 52).

#[global] Instance Q_Number : Number Q := {|
  is_integral := false;
  of_int := inject_Z;
  epsilon := Qepsilon;
  add := Qplus;
  sub := Qminus;
  mul := Qmult;
  div := Qdiv_opt;
  modulo := fun _ _ => None;
  neg := Qopp;
  eqb := Qeq_bool;
  ltb := Qltb;
  leb := Qle_bool;
  fmod := Qfmod;
  remainder := Qremainder;
  nearbyint := fun x => inject_Z (Qnearest x);
  abs := Qabs;
  promote := fun x => x
|}.

(** *** [long long] *)

(** The conversion of an integer to [double] and back.  The integers of a
    magnitude up to [2 ^ 53] are [double] values; a larger one is rounded
    to 53 significant bits, a tie going to the even significand. *)
Definition round_to_double (x : Z) : Z :=
  if (Z.abs x <=? 2 ^ 53)%Z then x
  else
    let ulp := (2 ^ (Z.log2 (Z.abs x) - 52))%Z in
    (Z.sgn x * (Znearest_quot (Z.abs x) ulp * ulp))%Z.

(** A 64-bit signed integer.  Signed overflow is undefined behaviour and
    is not modelled: [+], [-] and [*] are those of [Z].  The [<cmath>]
    functions convert their arguments to [double] first; their result is a
    [double] with an integer value, held as that integer. *)
Record long_long : Type := LL { ll : Z }.

#[global] Instance long_long_Number : Number long_long := {|
  is_integral := true;
  of_int := LL;
  epsilon := LL 0;
  add := fun x y => LL (ll x + ll y);
  sub := fun x y => LL (ll x - ll y);
  mul := fun x y => LL (ll x * ll y);
  div := fun x y => option_map LL (Zdiv_opt (ll x) (ll y));
  modulo := fun x y => option_map LL (Zmod_opt (ll x) (ll y));
  neg := fun x => LL (- ll x);
  eqb := fun x y => (ll x =? ll y)%Z;
  ltb := fun x y => (ll x <? ll y)%Z;
  leb := fun x y => (ll x <=? ll y)%Z;
  fmod := fun x y =>
    option_map LL (Zfmod (round_to_double (ll x)) (round_to_double (ll y)));
  remainder := fun x y =>
    option_map LL (Zremainder (round_to_double (ll x)) (round_to_double (ll y)));
  nearbyint := fun x => LL (round_to_double (ll x));
  abs := fun x => LL (Z.abs (ll x));
  promote := fun x => LL (round_to_double (ll x))
|}.

(** *** [unsigned int] *)

Definition wrap32 (x : Z) : Z := (x mod 2 ^ 32)%Z.

(** A 32-bit unsigned integer: a value from 0 to [2 ^ 32 - 1], with the
    arithmetic modulo [2 ^ 32].  Every value is a [double] value.  The
    result of [remainder] may be negative; it is held modulo [2 ^ 32], so
    that subtracting it gives the value that the code's subtraction in
    [double] converts to.  [std::abs] has no overload for an unsigned type;
    [abs] is the identity. *)
Record unsigned_int : Type := UI { ui : Z }.

#[global] Instance unsigned_int_Number : Number unsigned_int := {|
  is_integral := true;
  of_int := fun n => UI (wrap32 n);
  epsilon := UI 0;
  add := fun x y => UI (wrap32 (ui x + ui y));
  sub := fun x y => UI (wrap32 (ui x - ui y));
  mul := fun x y => UI (wrap32 (ui x * ui y));
  div := fun x y => option_map UI (Zdiv_opt (ui x) (ui y));
  modulo := fun x y => option_map UI (Zmod_opt (ui x) (ui y));
  neg := fun x => UI (wrap32 (- ui x));
  eqb := fun x y => (ui x =? ui y)%Z;
  ltb := fun x y => (ui x <? ui y)%Z;
  leb := fun x y => (ui x <=? ui y)%Z;
  fmod := fun x y => option_map UI (Zfmod (ui x) (ui y));
  remainder := fun x y =>
    option_map (fun r => UI (wrap32 r)) (Zremainder (ui x) (ui y));
  nearbyint := fun x => x;
  abs := fun x => x;
  promote := fun x => x
|}.

(** *** [double] *)

(** The IEEE 754 binary64 numbers, with the operators of the processor. *)
Definition double : Type := float.

(** The [double] nearest to [m * 2 ^ e], a tie going to the even
    significand; a zero result has the sign [szero]. *)
Definition double_of (m e : Z) (szero : bool) : double :=
  SF2Prim (binary_normalize prec emax m e szero).

Definition signed (s : bool) (m : positive) : Z :=
  if s then Z.neg m else Z.pos m.

(** [std::fmod] and [std::remainder] on [double]: [x] minus the quotient
    [quot x y] times [y], computed on the integers that [x] and [y] are
    multiples of a common power of two of; the result is a [double] and
    has the sign of [x] when it is zero.  NaN for a NaN argument, an
    infinite [x] or a zero [y]; [x] itself for an infinite [y]. *)
Definition double_rem (quot : Z -> Z -> Z) (x y : double) : double :=
  match Prim2SF x, Prim2SF y with
  | S754_nan, _ | _, S754_nan => nan
  | S754_infinity _, _ => nan
  | _, S754_zero _ => nan
  | _, S754_infinity _ => x
  | S754_zero _, _ => x
  | S754_finite sx mx ex, S754_finite sy my ey =>
      let e := Z.min ex ey in
      let X := (signed sx mx * 2 ^ (ex - e))%Z in
      let Y := (Z.pos my * 2 ^ (ey - e))%Z in
      double_of (X - quot X Y * Y) e sx
  end.

Definition double_fmod : double -> double -> double := double_rem Z.quot.

Definition double_remainder : double -> double -> double := double_rem Znearest_quot.

(** [std::nearbyint] in the default rounding mode: the nearest integer, a
    tie going to the even one, with the sign of [x]. *)
Definition double_nearbyint (x : double) : double :=
  match Prim2SF x with
  | S754_finite s m e =>
      if (e <? 0)%Z then double_of (Znearest_quot (signed s m) (2 ^ (- e))) 0 s else x
  | _ => x
  end.

#[global] Instance double_Number : Number double := {|
  is_integral := false;
  of_int := fun n => double_of n 0 false;
  epsilon := 0x1p-52%float;
  add := PrimFloat.add;
  sub := PrimFloat.sub;
  mul := PrimFloat.mul;
  div := fun x y => Some (PrimFloat.div x y);
  modulo := fun _ _ => None;
  neg := PrimFloat.opp;
  eqb := PrimFloat.eqb;
  ltb := PrimFloat.ltb;
  leb := PrimFloat.leb;
  fmod := fun x y => Some (double_fmod x y);
  remainder := fun x y => Some (double_remainder x y);
  nearbyint := double_nearbyint;
  abs := PrimFloat.abs;
  promote := fun x => x
|}.

(** *** The arithmetic types of the model *)

(** The two kinds of arithmetic type, each with exact arithmetic:
    integral ([Z]) and real-valued ([Q]). *)
Inductive scalar : Type :=
  | int_t
  | real_t.

Definition carrier (s : scalar) : Type :=
  match s with
  | int_t => Z
  | real_t => Q
  end.

#[global] Instance carrier_Number (s : scalar) : Number (carrier s) :=
  match s with
  | int_t => Z_Number
  | real_t => Q_Number
  end.

Definition scalar_eq_dec (s t : scalar) : {s = t} + {s <> t}.
Proof. decide equality. Defined.

(** [std::common_type<A, B>]: integral only when both are. *)
Definition common_type (a b : scalar) : scalar :=
  match a, b with
  | int_t, int_t => int_t
  | _, _ => real_t
  end.

(** The conversion [B(x)] of a value [x] of type [A]. *)
Definition convert (a b : scalar) : carrier a -> carrier b :=
  match a, b with
  | int_t, int_t => fun x => x
  | int_t, real_t => inject_Z
  | real_t, int_t => Qtrunc
  | real_t, real_t => fun x => x
  end.

(** A number together with its type: the result of an expression whose
    type depends on the overload that is selected. *)
Definition number : Type := { s : scalar & carrier s }.

Definition number_of (s : scalar) (x : carrier s) : number := existT carrier s x.

(** * angle.h *)

Module Angle.

Local Open Scope num_scope.

(** A family of turn policies: each policy class [Turn] has a member type
    [Turn::type] and a constant [Turn::value], the angle of a full circle;
    [turn_eq_dec] is [std::is_same] on the policy classes. *)
Class TurnPolicy (P : Type) : Type := {
  turn_eq_dec : forall p q : P, {p = q} + {p <> q};
  type : P -> scalar;
  value : forall p : P, carrier (type p)
}.

Section Angle.

Context {P : Type} `{TurnPolicy P}.

(** [angle<Turn>]: one stored value of type [Turn::type]. *)
Record angle (Turn : P) : Type := mk_angle { v_ : carrier (type Turn) }.

Arguments mk_angle {Turn} _.
Arguments v_ {Turn} _.

Definition turn (Turn : P) : carrier (type Turn) := value Turn.

Definition normalize {Turn : P} (a : angle Turn) : option (angle Turn) :=
  if (v_ a < of_int 0) || (v_ a > turn Turn) then
    v1 <- fmod (v_ a) (turn Turn) ;;
    Some (mk_angle (if v1 < of_int 0 then v1 + turn Turn else v1))
  else
    Some a.

(** [conversion_t<OutTurn>] *)
Definition conversion_t (Turn OutTurn : P) : scalar :=
  common_type (type OutTurn) (type Turn).

(** [as<OutTurn>()]: the first overload is enabled when [OutTurn] is the
    angle's own policy, the second one otherwise. *)
Definition as_ {Turn : P} (OutTurn : P) (a : angle Turn) : option number :=
  match turn_eq_dec Turn OutTurn with
  | left _ => Some (number_of (type Turn) (v_ a))
  | right _ =>
      let T := conversion_t Turn OutTurn in
      q <- div (convert _ T (value OutTurn)) (convert _ T (turn Turn)) ;;
      Some (number_of T (q * convert _ T (v_ a)))
  end.

End Angle.

(** What the second overload of [as] computes, as a function of the two
    full turns and of the stored value, on an arithmetic type of any
    kind: the division first, then the multiplication. *)
Definition as_number {T : Type} `{Number T} (out_value turn_value v : T) : option T :=
  q <- div out_value turn_value ;;
  Some (q * v).

Arguments mk_angle {P _ Turn} _.
Arguments v_ {P _ Turn} _.

(** ** The turn policies of the header *)

Inductive unit_name : Type :=
  | degrees
  | arcmins
  | arcsecs
  | radians
  | gons
  | gon_cs
  | gon_ccs.

(** [degrees_turn<T>], [arcmins_turn<T>], ...: a unit and the type [T]. *)
Record std_turn : Type := mk_turn { unit_of : unit_name; type_of : scalar }.

Definition degrees_turn := mk_turn degrees.
Definition arcmins_turn := mk_turn arcmins.
Definition arcsecs_turn := mk_turn arcsecs.
Definition radians_turn := mk_turn radians.
Definition gons_turn := mk_turn gons.
Definition gon_cs_turn := mk_turn gon_cs.
Definition gon_ccs_turn := mk_turn gon_ccs.

(** Modelled from the spec: the constant [pi<T>] of [traits.h], which is
    not among the sources; the spec gives [2 pi] as the full turn in
    radians.  For a real-valued [T] it is the [double] nearest to pi, for
    an integral [T] its truncation. *)
Definition pi (s : scalar) : carrier s :=
  match s with
  | int_t => 3%Z
  | real_t => (884279719003555 # 281474976710656)%Q
  end.

Definition std_value (p : std_turn) : carrier (type_of p) :=
  match unit_of p with
  | degrees => of_int 360
  | arcmins => of_int 21600
  | arcsecs => of_int 1296000
  | radians => of_int 2 * pi (type_of p)
  | gons => of_int 400
  | gon_cs => of_int 40000
  | gon_ccs => of_int 4000000
  end.

Definition std_turn_eq_dec (p q : std_turn) : {p = q} + {p <> q}.
Proof. repeat decide equality. Defined.

#[global] Instance std_TurnPolicy : TurnPolicy std_turn := {|
  turn_eq_dec := std_turn_eq_dec;
  type := type_of;
  value := std_value
|}.

(** [degrees<int>] and [degrees<real_t>] values, [gons<int>] *)
Definition deg_i (v : Z) : angle (degrees_turn int_t) := mk_angle (v : carrier (type (degrees_turn int_t))).
Definition deg (v : Q) : angle (degrees_turn real_t) := mk_angle (v : carrier (type (degrees_turn real_t))).

End Angle.

(** * rounded.h *)

Module Rounded.

Local Open Scope num_scope.

Section Rounded.

Context {T : Type} `{Number T}.

(** ** Rounding methods *)

(** A rounding method [R] is default-constructible ([R()]) and callable on
    a value ([operator()]). *)
Class RoundingMethod (R : Type) : Type := {
  default_method : R;
  call : R -> T -> option T
}.

(** [struct round_to_nearest_int]: no data member. *)
Inductive round_to_nearest_int : Type :=
  | mk_round_to_nearest_int.

(** [operator()]: the branches of the conditional have the types [T] and
    that of [nearbyint(x)], so that for an integral [T] the value [x] is
    converted to [double] and, on return, back to [T]. *)
Definition round_to_nearest_int_call (_ : round_to_nearest_int) (x : T) : option T :=
  Some (if is_integral (T := T) then promote x else nearbyint x).

(** [struct round_to_nearest<T>]: the private member [unit_]. *)
Record round_to_nearest : Type := { unit_ : T }.

(** The constructor [round_to_nearest(T unit = T(0))]. *)
Definition mk_round_to_nearest (unit : T) : round_to_nearest :=
  {| unit_ := if unit <= of_int 0
              then (if is_integral (T := T) then of_int 1 else epsilon)
              else unit |}.

(** [operator()]: the difference [x - remainder(x, unit_)] is taken in
    the floating-point type of the remainder, to which [x] is converted,
    and is converted to [T] on return. *)
Definition round_to_nearest_call (rm : round_to_nearest) (x : T) : option T :=
  r <- remainder x (unit_ rm) ;;
  Some (promote (promote x - r)).

#[global] Instance round_to_nearest_int_method : RoundingMethod round_to_nearest_int := {|
  default_method := mk_round_to_nearest_int;
  call := round_to_nearest_int_call
|}.

#[global] Instance round_to_nearest_method : RoundingMethod round_to_nearest := {|
  default_method := mk_round_to_nearest (of_int 0);
  call := round_to_nearest_call
|}.

(** ** The class [rounded<T, R>] *)

Section Class.

Context {R : Type} `{RoundingMethod R}.

(** The rounding method is a base class sub-object, [v_] the only member. *)
Record rounded : Type := mk_rounded { method : R; v_ : T }.

(** [corrected(v)] uses the object's own method, the static
    [corrected(v, rm)] the method it is given. *)
Definition corrected (x : rounded) (v : T) : option T := call (method x) v.

Definition corrected_with (v : T) (rm : R) : option T := call rm v.

(** [rounded(const value_type& v, rounding_method rm = rounding_method())] *)
Definition rounded_from (v : T) (rm : R) : option rounded :=
  c <- corrected_with v rm ;;
  Some (mk_rounded rm c).

Definition rounded_of (v : T) : option rounded := rounded_from v default_method.


Definition value (x : rounded) : T := v_ x.

(** Storing [corrected(v)] in [*this]. *)
Definition store (x : rounded) (v : T) : option rounded :=
  c <- corrected x v ;;
  Some (mk_rounded (method x) c).

(** [operator = (const value_type& v)] *)
Definition assign (x : rounded) (v : T) : option rounded := store x v.

(** [operator +=], [-=], [*=], [/=] with a [value_type] operand *)
Definition add_assign (x : rounded) (v : T) : option rounded := store x (v_ x + v).

Definition sub_assign (x : rounded) (v : T) : option rounded := store x (v_ x - v).

Definition mul_assign (x : rounded) (v : T) : option rounded := store x (v_ x * v).

Definition div_assign (x : rounded) (v : T) : option rounded :=
  q <- div (v_ x) v ;;
  store x q.

(** The prefix operators return [*this], the postfix ones the old object;
    the second component is the object after the call. *)
Definition pre_inc (x : rounded) : option rounded := store x (v_ x + of_int 1).

Definition pre_dec (x : rounded) : option rounded := store x (v_ x - of_int 1).

Definition post_inc (x : rounded) : option (rounded * rounded) :=
  let old := x in
  x' <- pre_inc x ;;
  Some (old, x').

Definition post_dec (x : rounded) : option (rounded * rounded) :=
  let old := x in
  x' <- pre_dec x ;;
  Some (old, x').

(** [operator +=], [-=], [*=], [/=], [%=] with a [rounded] operand *)
Definition add_assign_r (x o : rounded) : option rounded := store x (v_ x + value o).

Definition sub_assign_r (x o : rounded) : option rounded := store x (v_ x - value o).

Definition mul_assign_r (x o : rounded) : option rounded := store x (v_ x * value o).

Definition div_assign_r (x o : rounded) : option rounded :=
  q <- div (v_ x) (value o) ;;
  store x q.

(** [%=] exists for a [rounded] operand only. *)
Definition mod_assign_r (x o : rounded) : option rounded :=
  m <- modulo (v_ x) (value o) ;;
  store x m.

(** Unary minus: [rounded<T,R>{-x.value()}]. *)
Definition negate (x : rounded) : option rounded := rounded_of (- value x).

End Class.

Arguments rounded R : clear implicits.

(** ** Binary operators

    For each operator: two [rounded] operands (whose rounding methods may
    differ), a [rounded] and a number, a number and a [rounded]. *)

Section Arithmetic.

Context {R1 R2 : Type}.

Definition plus (x : rounded R1) (y : rounded R2) : T := value x + value y.
Definition plus_n (x : rounded R1) (y : T) : T := value x + y.
Definition n_plus (y : T) (x : rounded R1) : T := y + value x.

Definition minus (x : rounded R1) (y : rounded R2) : T := value x - value y.
Definition minus_n (x : rounded R1) (y : T) : T := value x - y.
Definition n_minus (y : T) (x : rounded R1) : T := y - value x.

Definition times (x : rounded R1) (y : rounded R2) : T := value x * value y.
Definition times_n (x : rounded R1) (y : T) : T := value x * y.
Definition n_times (y : T) (x : rounded R1) : T := y * value x.

Definition divide (x : rounded R1) (y : rounded R2) : option T := div (value x) (value y).
Definition divide_n (x : rounded R1) (y : T) : option T := div (value x) y.
Definition n_divide (y : T) (x : rounded R1) : option T := div y (value x).

Definition modulus (x : rounded R1) (y : rounded R2) : option T := modulo (value x) (value y).
Definition modulus_n (x : rounded R1) (y : T) : option T := modulo (value x) y.
Definition n_modulus (y : T) (x : rounded R1) : option T := modulo y (value x).

End Arithmetic.

End Rounded.

Arguments round_to_nearest T : clear implicits.
Arguments RoundingMethod T R : clear implicits.
Arguments rounded T R : clear implicits.

End Rounded.

(** * equality.h *)

Module Equality.

Local Open Scope num_scope.

Section Equality.

Context {T : Type} `{Number T}.

(** [approx_equal(a, b, tolerance)] *)
Definition approx_equal (a b tolerance : T) : bool :=
  (a >= b - tolerance) && (a <= b + tolerance).

(** ** Ranges

    An input iterator is a position in a sequence.  Reading at a position
    past the end of the sequence has no defined result. *)
Record iter : Type := mk_iter { seq : list T; pos : nat }.

Definition deref (i : iter) : option T := nth_error (seq i) (pos i).

Definition next (i : iter) : iter := mk_iter (seq i) (S (pos i)).

(** [i != j], for two iterators of one sequence. *)
Definition differ (i j : iter) : bool := negb (Nat.eqb (pos i) (pos j)).

(** The loop of the range overload.  Every iteration reads through
    [begin1], so it runs at most [length (seq begin1)] times before a read
    past the end: that number is the fuel of [approx_equal_iter3]. *)
Fixpoint approx_equal_loop (fuel : nat) (begin1 end1 begin2 : iter)
    (tolerance : T) : option bool :=
  if differ begin1 end1 then
    match fuel with
    | O => None
    | S fuel' =>
        x <- deref begin1 ;;
        y <- deref begin2 ;;
        if abs (x - y) > tolerance then Some false
        else approx_equal_loop fuel' (next begin1) end1 (next begin2) tolerance
    end
  else Some true.

(** [approx_equal(begin1, end1, begin2, tolerance)] *)
Definition approx_equal_iter3 (begin1 end1 begin2 : iter) (tolerance : T) : option bool :=
  approx_equal_loop (length (seq begin1)) begin1 end1 begin2 tolerance.

(** [approx_equal(begin1, end1, begin2, InputIter, tolerance)]: the fourth
    iterator has no name. *)
Definition approx_equal_iter4 (begin1 end1 begin2 _ : iter) (tolerance : T) : option bool :=
  approx_equal_iter3 begin1 end1 begin2 tolerance.

(** The elements of a range that starts at [i] and has [n] elements. *)
Definition range_elements (i : iter) (n : nat) : list T :=
  firstn n (skipn (pos i) (seq i)).

(** One comparison of the loop: the two elements are close enough. *)
Definition close (tolerance : T) (xy : T * T) : bool :=
  negb (abs (fst xy - snd xy) > tolerance).

End Equality.

Arguments iter T : clear implicits.

End Equality.

(** * The properties to prove *)

Section AngleProperties.

Import Angle.
Local Open Scope num_scope.

(** The value that [normalize] stores, as a function of the full turn [t]
    and of the value [v] stored before. *)
Definition normalize_value (s : scalar) (t v : carrier s) : option (carrier s) :=
  if (v < of_int 0) || (v > t) then
    v1 <- fmod v t ;;
    Some (if v1 < of_int 0 then v1 + t else v1)
  else
    Some v.

(** The same function on an arithmetic type of any kind. *)
Definition normalize_number {T : Type} `{Number T} (t v : T) : option T :=
  if (v < of_int 0) || (v > t) then
    v1 <- fmod v t ;;
    Some (if v1 < of_int 0 then v1 + t else v1)
  else
    Some v.

(** [v'] lies in the closed range from zero to the full turn [t], and below
    [t] unless the value [v] before was [t] itself, which stays. *)
Definition normalized (s : scalar) (t v v' : carrier s) : Prop :=
  (of_int 0 <= v') = true
  /\ (v' <= t) = true
  /\ ((v == t) = false -> (v' < t) = true)
  /\ ((v == t) = true -> v' = v).

End AngleProperties.

(** The range [[0, turn())] that the stored value of an angle may lie in. *)
Definition in_half_open_turn {P : Type} `{Angle.TurnPolicy P} {Turn : P}
    (a : Angle.angle Turn) : bool :=
  (leb (of_int 0) (Angle.v_ a) && ltb (Angle.v_ a) (Angle.turn Turn))%bool.

(** The range [[0, turn()]], the one the comment of [normalize] names. *)
Definition in_closed_turn {P : Type} `{Angle.TurnPolicy P} {Turn : P}
    (a : Angle.angle Turn) : bool :=
  (leb (of_int 0) (Angle.v_ a) && leb (Angle.v_ a) (Angle.turn Turn))%bool.

(** [y] is [x] snapped to the nearest multiple of the unit [u], a tie
    between two multiples going to the even one. *)
Definition nearest_multiple (s : scalar) (u x y : carrier s) : Prop :=
  exists n : Z,
    (y == of_int n * u)%num = true
    /\ (of_int 2 * abs (x - y) <= u)%num = true
    /\ ((of_int 2 * abs (x - y) == u)%num = true -> Z.even n = true)
    /\ (forall m : Z, (abs (x - y) <= abs (x - of_int m * u))%num = true).

(** The stored value is in corrected form: [v_ == corrected(v_)]. *)
Definition in_corrected_form {T R : Type} `{Number T} `{Rounded.RoundingMethod T R}
    (x : Rounded.rounded T R) : bool :=
  match Rounded.call (Rounded.method x) (Rounded.v_ x) with
  | Some w => (Rounded.v_ x == w)%num
  | None => false
  end.

(** The rounding method objects that the two methods of the header let
    one construct, for the arithmetic type [carrier s]. *)
Inductive library_method (s : scalar) :
    forall R : Type, Rounded.RoundingMethod (carrier s) R -> R -> Prop :=
  | nearest_int_object :
      library_method s Rounded.round_to_nearest_int Rounded.round_to_nearest_int_method
        Rounded.mk_round_to_nearest_int
  | nearest_object (u : carrier s) :
      library_method s (Rounded.round_to_nearest (carrier s))
        Rounded.round_to_nearest_method (Rounded.mk_round_to_nearest u).

(** The mutating operations of [rounded]. *)
Inductive mutation {T R : Type} : Type :=
  | Assign (v : T)
  | AddAssign (v : T)
  | SubAssign (v : T)
  | MulAssign (v : T)
  | DivAssign (v : T)
  | PreInc
  | PreDec
  | PostInc
  | PostDec
  | AddAssignR (o : Rounded.rounded T R)
  | SubAssignR (o : Rounded.rounded T R)
  | MulAssignR (o : Rounded.rounded T R)
  | DivAssignR (o : Rounded.rounded T R)
  | ModAssignR (o : Rounded.rounded T R).

Arguments mutation T R : clear implicits.

(** The object after the operation [m] on [x]. *)
Definition after {T R : Type} `{Number T} `{Rounded.RoundingMethod T R}
    (m : mutation T R) (x : Rounded.rounded T R) : option (Rounded.rounded T R) :=
  match m with
  | Assign v => Rounded.assign x v
  | AddAssign v => Rounded.add_assign x v
  | SubAssign v => Rounded.sub_assign x v
  | MulAssign v => Rounded.mul_assign x v
  | DivAssign v => Rounded.div_assign x v
  | PreInc => Rounded.pre_inc x
  | PreDec => Rounded.pre_dec x
  | PostInc => option_map snd (Rounded.post_inc x)
  | PostDec => option_map snd (Rounded.post_dec x)
  | AddAssignR o => Rounded.add_assign_r x o
  | SubAssignR o => Rounded.sub_assign_r x o
  | MulAssignR o => Rounded.mul_assign_r x o
  | DivAssignR o => Rounded.div_assign_r x o
  | ModAssignR o => Rounded.mod_assign_r x o
  end.


(** * Facts about the arithmetic types *)

Lemma bind_Some {A B : Type} (c : option A) (k : A -> option B) (b : B) :
  bind c k = Some b <-> exists a, c = Some a /\ k a = Some b.
Proof.
  destruct c as [a|]; simpl; split.
  - intros Hk. exists a. split; [reflexivity | exact Hk].
  - intros [a' [Ha Hk]]. injection Ha as ->. exact Hk.
  - discriminate.
  - intros [a' [Ha _]]. discriminate.
Qed.

(** The comparisons of [Q] as propositions. *)
Lemma Qltb_lt (x y : Q) : Qltb x y = true <-> (x < y)%Q.
Proof.
  unfold Qltb. rewrite negb_true_iff. split.
  - intros Hle. apply Qnot_le_lt. intros Hyx.
    apply Qle_bool_iff in Hyx. congruence.
  - intros Hlt. destruct (Qle_bool y x) eqn:Hle; [|reflexivity].
    apply Qle_bool_iff in Hle. exfalso. exact (Qlt_not_le _ _ Hlt Hle).
Qed.

Lemma Qltb_ge (x y : Q) : Qltb x y = false <-> (y <= x)%Q.
Proof.
  unfold Qltb. rewrite negb_false_iff. apply Qle_bool_iff.
Qed.

Lemma Qle_bool_gt (x y : Q) : Qle_bool x y = false <-> (y < x)%Q.
Proof.
  rewrite <- Qltb_lt. unfold Qltb. rewrite negb_true_iff. reflexivity.
Qed.

Lemma Qeq_bool_false (x y : Q) : Qeq_bool x y = false <-> ~ (x == y)%Q.
Proof.
  split.
  - intros Hb Heq. apply Qeq_eq_bool in Heq. congruence.
  - intros Hne. destruct (Qeq_bool x y) eqn:Hb; [|reflexivity].
    apply Qeq_bool_eq in Hb. contradiction.
Qed.

(** Division is defined whenever the divisor is not zero. *)
Lemma div_defined (s : scalar) (x y : carrier s) :
  eqb y (of_int 0) = false -> exists q, div x y = Some q.
Proof.
  destruct s; simpl; intros Hy.
  - unfold Zdiv_opt. rewrite Hy. eexists. reflexivity.
  - unfold Qdiv_opt. change (inject_Z 0) with 0%Q in Hy. rewrite Hy.
    eexists. reflexivity.
Qed.

(** On the exact types a value converted to the floating-point type of
    the [<cmath>] functions and back is the value itself, so the method
    [round_to_nearest] returns the exact difference. *)
Lemma promote_exact (s : scalar) (x : carrier s) : promote x = x.
Proof. destruct s; reflexivity. Qed.

Lemma round_to_nearest_call_exact (s : scalar)
    (rm : Rounded.round_to_nearest (carrier s)) (x : carrier s) :
  Rounded.round_to_nearest_call rm x
  = (r <- remainder x (Rounded.unit_ rm) ;; Some (sub x r)).
Proof.
  unfold Rounded.round_to_nearest_call.
  destruct (remainder x (Rounded.unit_ rm)); cbn [bind]; [|reflexivity].
  rewrite !promote_exact. reflexivity.
Qed.

Lemma Qdiv_times (v t : Q) : ~ (t == 0)%Q -> (v == v / t * t)%Q.
Proof. intros Ht. field. exact Ht. Qed.

(** Truncation leaves a fractional part of the sign of its argument. *)
Lemma Qtrunc_bounds (q : Q) :
  ((0 <= q -> 0 <= q - inject_Z (Qtrunc q) /\ q - inject_Z (Qtrunc q) < 1)
   /\ (q <= 0 -> -1 < q - inject_Z (Qtrunc q) /\ q - inject_Z (Qtrunc q) <= 0))%Q.
Proof.
  unfold Qtrunc.
  pose proof (Qfloor_le q) as Hf1. pose proof (Qlt_floor q) as Hf2.
  pose proof (Qle_ceiling q) as Hc1. pose proof (Qceiling_lt q) as Hc2.
  rewrite inject_Z_plus in Hf2.
  unfold Z.sub in Hc2. rewrite inject_Z_plus in Hc2.
  change (inject_Z 1) with 1%Q in *.
  change (inject_Z (- (1))) with (-1 # 1)%Q in *.
  destruct (Qle_bool 0 q) eqn:Hq.
  - apply Qle_bool_iff in Hq. split; intros Hs; [split; lra|].
    assert (Hq0 : (q == 0)%Q) by lra.
    rewrite (Qfloor_comp q 0 Hq0). change (Qfloor 0) with 0%Z.
    change (inject_Z 0) with 0%Q. split; lra.
  - apply Qle_bool_gt in Hq. split; intros Hs; split; lra.
Qed.

(** The bounds of [fmod] for a positive divisor: the result has the sign
    of the dividend and is smaller than the divisor. *)
Lemma Qfmod_bounds (t v : Q) :
  (0 < t ->
   let r := v - inject_Z (Qtrunc (v / t)) * t in
   (0 <= v -> 0 <= r /\ r < t) /\ (v <= 0 -> - t < r /\ r <= 0))%Q.
Proof.
  intros Ht r.
  assert (Hv : (v == v / t * t)%Q) by (apply Qdiv_times; lra).
  destruct (Qtrunc_bounds (v / t)) as [Hpos Hneg].
  set (q := (v / t)%Q) in *. set (n := inject_Z (Qtrunc q)) in *.
  assert (Hr : (r == (q - n) * t)%Q) by (unfold r; rewrite Hv at 1; ring).
  split; intros Hs.
  - assert (Hq : (0 <= q)%Q).
    { destruct (Qlt_le_dec q 0) as [Hlt|Hge]; [|exact Hge]. exfalso. nra. }
    destruct (Hpos Hq). rewrite Hr. split; nra.
  - assert (Hq : (q <= 0)%Q).
    { destruct (Qlt_le_dec 0 q) as [Hlt|Hge]; [|exact Hge]. exfalso. nra. }
    destruct (Hneg Hq). rewrite Hr. split; nra.
Qed.

(** * Facts about angle.h *)

Section AngleFacts.

Import Angle.
Local Open Scope num_scope.

Context {P : Type} `{TurnPolicy P}.

(** C5: converting an angle to its own turn policy returns the stored value
    unchanged, whatever the policy. *)
Theorem as_same_turn_identity (Turn : P) (a : angle Turn) :
  as_ Turn a = Some (number_of (type Turn) (v_ a)).
Proof.
  unfold as_. destruct (turn_eq_dec Turn Turn) as [_ | Hne].
  - reflexivity.
  - contradiction Hne. reflexivity.
Qed.

End AngleFacts.

(** Between two policies of the header, [as] takes the branch of the
    conversion unless the unit and the type are both the same. *)
Lemma as_std_other (p q : Angle.std_turn) (a : Angle.angle p) :
  q <> p ->
  Angle.as_ q a =
    (let T := common_type (Angle.type_of q) (Angle.type_of p) in
     f <- div (convert _ T (Angle.std_value q)) (convert _ T (Angle.std_value p)) ;;
     Some (number_of T (mul f (convert _ T (Angle.v_ a))))).
Proof.
  intros Hne. unfold Angle.as_.
  destruct (Angle.turn_eq_dec p q) as [Heq | _].
  - contradiction Hne. symmetry. exact Heq.
  - reflexivity.
Qed.

Lemma std_value_int_nonzero (u : Angle.unit_name) :
  (Angle.std_value (Angle.mk_turn u int_t) =? 0)%Z = false.
Proof. destruct u; reflexivity. Qed.

Lemma std_value_real_nonzero (u : Angle.unit_name) :
  Qeq_bool (Angle.std_value (Angle.mk_turn u real_t)) 0 = false.
Proof. destruct u; reflexivity. Qed.

Lemma inject_std_value_nonzero (u : Angle.unit_name) :
  Qeq_bool (inject_Z (Angle.std_value (Angle.mk_turn u int_t))) 0 = false.
Proof. destruct u; reflexivity. Qed.

(** C6: converting to another turn policy multiplies the stored value by
    the quotient of the two full turns, in the common type of the two
    policies' types: one division and one multiplication, with a result
    whenever the angle's own full turn is not zero.  The common type is
    integral only when both types are, and then the quotient of the full
    turns is the truncating one; in every other case an integer operand is
    taken as the real number it is before the division.  For the policies
    of the header this gives the four cases below.  On [double] each of
    the two operations rounds: 13 gons are 11.700000000000001 degrees,
    where the [double] nearest to [360 * 13 / 400] is 11.7. *)
Theorem as_other_turn_scaled :
  (forall (P : Type) (TP : Angle.TurnPolicy P) (Turn OutTurn : P) (a : Angle.angle Turn),
      OutTurn <> Turn ->
      let T := common_type (Angle.type OutTurn) (Angle.type Turn) in
      Angle.as_ OutTurn a =
        (q <- div (convert _ T (Angle.value OutTurn)) (convert _ T (Angle.value Turn)) ;;
         Some (number_of T (mul q (convert _ T (Angle.v_ a)))))
      /\ (eqb (convert _ T (Angle.value Turn)) (of_int 0) = false ->
          exists q,
            div (convert _ T (Angle.value OutTurn)) (convert _ T (Angle.value Turn)) = Some q
            /\ Angle.as_ OutTurn a = Some (number_of T (mul q (convert _ T (Angle.v_ a))))))
  /\ (common_type int_t int_t = int_t
      /\ common_type int_t real_t = real_t
      /\ common_type real_t int_t = real_t
      /\ common_type real_t real_t = real_t)
  /\ (forall n : Z, convert int_t int_t n = n /\ convert int_t real_t n = inject_Z n)
  /\ (forall x : Q, convert real_t real_t x = x)
  /\ (forall (u1 u2 : Angle.unit_name) (v : Z),
        u2 <> u1 ->
        Angle.as_ (Angle.mk_turn u2 int_t) (Angle.mk_angle (Turn := Angle.mk_turn u1 int_t) v)
        = Some (existT carrier int_t
                  (Z.quot (Angle.std_value (Angle.mk_turn u2 int_t))
                          (Angle.std_value (Angle.mk_turn u1 int_t)) * v)%Z))
  /\ (forall (u1 u2 : Angle.unit_name) (v : Z),
        Angle.as_ (Angle.mk_turn u2 real_t) (Angle.mk_angle (Turn := Angle.mk_turn u1 int_t) v)
        = Some (existT carrier real_t
                  (Angle.std_value (Angle.mk_turn u2 real_t)
                   / inject_Z (Angle.std_value (Angle.mk_turn u1 int_t)) * inject_Z v)%Q))
  /\ (forall (u1 u2 : Angle.unit_name) (v : Q),
        Angle.as_ (Angle.mk_turn u2 int_t) (Angle.mk_angle (Turn := Angle.mk_turn u1 real_t) v)
        = Some (existT carrier real_t
                  (inject_Z (Angle.std_value (Angle.mk_turn u2 int_t))
                   / Angle.std_value (Angle.mk_turn u1 real_t) * v)%Q))
  /\ (forall (u1 u2 : Angle.unit_name) (v : Q),
        u2 <> u1 ->
        Angle.as_ (Angle.mk_turn u2 real_t) (Angle.mk_angle (Turn := Angle.mk_turn u1 real_t) v)
        = Some (existT carrier real_t
                  (Angle.std_value (Angle.mk_turn u2 real_t)
                   / Angle.std_value (Angle.mk_turn u1 real_t) * v)%Q))
  /\ (forall (P : Type) (TP : Angle.TurnPolicy P) (Turn OutTurn : P) (a : Angle.angle Turn),
        OutTurn <> Turn ->
        let T := common_type (Angle.type OutTurn) (Angle.type Turn) in
        Angle.as_ OutTurn a
        = option_map (number_of T)
            (Angle.as_number (convert _ T (Angle.value OutTurn))
               (convert _ T (Angle.value Turn)) (convert _ T (Angle.v_ a))))
  /\ (Angle.as_number 360%float 400%float 13%float = Some 0x1.7666666666667p+3%float
      /\ (4680 / 400)%float = 0x1.7666666666666p+3%float
      /\ Angle.as_number (LL 400) (LL 360) (LL 90) = Some (LL 90)).
Proof.
  split; [|split; [|split; [|split; [|split; [|split; [|split; [|split; [|split]]]]]]]].
  - intros P TP Turn OutTurn a Hne T.
    assert (Has : Angle.as_ OutTurn a =
      (q <- div (convert _ T (Angle.value OutTurn)) (convert _ T (Angle.value Turn)) ;;
       Some (number_of T (mul q (convert _ T (Angle.v_ a)))))).
    { unfold Angle.as_. destruct (Angle.turn_eq_dec Turn OutTurn) as [Heq | _].
      - contradiction Hne. symmetry. exact Heq.
      - reflexivity. }
    split; [exact Has|].
    intros Hnz.
    destruct (div_defined T (convert _ T (Angle.value OutTurn)) _ Hnz) as [q Hq].
    exists q. split; [exact Hq|].
    rewrite Has, Hq. reflexivity.
  - repeat split.
  - intros n. split; reflexivity.
  - intros x. reflexivity.
  - intros u1 u2 v Hne. rewrite as_std_other by congruence.
    cbn [common_type Angle.type_of convert carrier_Number Z_Number div mul Angle.v_ bind].
    unfold Zdiv_opt. rewrite std_value_int_nonzero. reflexivity.
  - intros u1 u2 v. rewrite as_std_other by discriminate.
    cbn [common_type Angle.type_of convert carrier_Number Q_Number div mul Angle.v_ bind].
    unfold Qdiv_opt. rewrite inject_std_value_nonzero. reflexivity.
  - intros u1 u2 v. rewrite as_std_other by discriminate.
    cbn [common_type Angle.type_of convert carrier_Number Q_Number div mul Angle.v_ bind].
    unfold Qdiv_opt. rewrite std_value_real_nonzero. reflexivity.
  - intros u1 u2 v Hne. rewrite as_std_other by congruence.
    cbn [common_type Angle.type_of convert carrier_Number Q_Number div mul Angle.v_ bind].
    unfold Qdiv_opt. rewrite std_value_real_nonzero. reflexivity.
  - intros P TP Turn OutTurn a Hne T.
    unfold Angle.as_, Angle.as_number.
    destruct (Angle.turn_eq_dec Turn OutTurn) as [Heq | _].
    + contradiction Hne. symmetry. exact Heq.
    + unfold Angle.conversion_t, Angle.turn. fold T.
      destruct (div (convert _ T (Angle.value OutTurn))
                    (convert _ T (Angle.value Turn))); reflexivity.
  - repeat split; vm_compute; reflexivity.
Qed.

(** A quarter turn in [degrees<int>]: as [gons<int>] it is 90, the
    quotient [400 / 360] of the full turns being an integer division; as
    [gons] of a real-valued type it is 100. *)
Lemma as_other_turn_scaled_witness :
  Angle.gons_turn int_t <> Angle.degrees_turn int_t
  /\ Angle.as_ (Angle.gons_turn int_t) (Angle.deg_i 90) = Some (number_of int_t 90%Z)
  /\ Angle.as_ (Angle.gons_turn real_t) (Angle.deg_i 90)
     = Some (number_of real_t (400 / 360 * 90)%Q).
Proof.
  assert (Hne : Angle.gons_turn int_t <> Angle.degrees_turn int_t) by discriminate.
  split; [exact Hne|]. split.
  - destruct (proj1 as_other_turn_scaled _ _ (Angle.degrees_turn int_t)
                (Angle.gons_turn int_t) (Angle.deg_i 90) Hne) as [_ Hex].
    destruct (Hex eq_refl) as [q [Hq Has]].
    rewrite Has. injection Hq as <-. reflexivity.
  - exact (proj1 (proj2 (proj2 (proj2 (proj2 (proj2 as_other_turn_scaled)))))
             Angle.degrees Angle.gons 90%Z).
Defined.

Example as_degrees_to_gons_real :
  exists q, Angle.as_ (Angle.gons_turn real_t) (Angle.deg 90) = Some (number_of real_t q)
            /\ (q == 100)%Q.
Proof.
  eexists. split; [vm_compute; reflexivity | reflexivity].
Qed.

(** * Facts about equality.h *)

Section EqualityFacts.

Import Equality.
Local Open Scope num_scope.

(** On the integers and on the rationals the check is the two-sided range
    check of the mathematical order. *)
Lemma approx_equal_Z (a b tol : Z) :
  approx_equal a b tol = true <-> (b - tol <= a /\ a <= b + tol)%Z.
Proof.
  unfold approx_equal. simpl. rewrite andb_true_iff, !Z.leb_le. reflexivity.
Qed.

Lemma approx_equal_Q (a b tol : Q) :
  approx_equal a b tol = true <-> (b - tol <= a /\ a <= b + tol)%Q.
Proof.
  unfold approx_equal. simpl. rewrite andb_true_iff, !Qle_bool_iff. reflexivity.
Qed.

(** On a signed integer the check is the one of [Z], as long as nothing
    overflows. *)
Lemma approx_equal_long_long (a b tol : Z) :
  approx_equal (LL a) (LL b) (LL tol) = true <-> (b - tol <= a /\ a <= b + tol)%Z.
Proof.
  unfold approx_equal. cbn [long_long_Number leb sub add ll].
  rewrite andb_true_iff, !Z.leb_le. reflexivity.
Qed.

Lemma wrap32_small (x : Z) : (0 <= x < 2 ^ 32)%Z -> wrap32 x = x.
Proof. intros Hx. unfold wrap32. apply Z.mod_small. exact Hx. Qed.

Lemma wrap32_negative (x : Z) : (- 2 ^ 32 <= x < 0)%Z -> wrap32 x = (x + 2 ^ 32)%Z.
Proof.
  intros Hx. unfold wrap32.
  rewrite <- (Z.mod_small (x + 2 ^ 32) (2 ^ 32)) by lia.
  replace (x + 2 ^ 32)%Z with (x + 1 * 2 ^ 32)%Z by lia.
  rewrite Z_mod_plus_full. reflexivity.
Qed.

(** On [unsigned int] the check is the one of the integers when neither
    bound wraps around. *)
Lemma approx_equal_unsigned_in_range (a b tol : Z) :
  (0 <= a < 2 ^ 32)%Z -> (0 <= tol <= b)%Z -> (b + tol < 2 ^ 32)%Z ->
  approx_equal (UI a) (UI b) (UI tol) = true <-> (b - tol <= a /\ a <= b + tol)%Z.
Proof.
  intros _ Hb Hs. unfold approx_equal. cbn [unsigned_int_Number leb sub add ui].
  rewrite !wrap32_small by lia.
  rewrite andb_true_iff, !Z.leb_le. reflexivity.
Qed.

(** A tolerance above [b] makes the lower bound wrap around: the check
    then fails for every [a]. *)
Lemma approx_equal_unsigned_wrapped (a b tol : Z) :
  (0 <= a < 2 ^ 32)%Z -> (0 <= b < tol)%Z -> (tol < 2 ^ 31)%Z ->
  approx_equal (UI a) (UI b) (UI tol) = false.
Proof.
  intros _ Hb Ht. unfold approx_equal. cbn [unsigned_int_Number leb sub add ui].
  rewrite wrap32_negative by lia. rewrite wrap32_small by lia.
  apply andb_false_iff.
  destruct (Z.leb_spec (b - tol + 2 ^ 32) a) as [Hlo|Hlo]; [right | left; reflexivity].
  apply Z.leb_gt. lia.
Qed.

(** C8, as the code has it: [approx_equal a b tol] compares [a] with
    [b - tol] and with [b + tol], both computed in the type of the
    operands.  On a signed integer without overflow and in exact real
    arithmetic this is the two-sided range check [b - tol <= a <= b + tol];
    on [unsigned int] it is that check only when neither bound wraps
    around, and with [b < tol < 2 ^ 31] the result is false for every [a];
    on [double] the two bounds are rounded, so that the number next below
    1 is within [3 / 2 ^ 55] of 1, which it is not in exact arithmetic.
    [approx_equal(1.1, 1.0, 0.01)] is false, in exact arithmetic and on
    [double]. *)
Theorem approx_equal_two_sided :
  (forall a b tol : Z,
      approx_equal a b tol = true <-> (b - tol <= a /\ a <= b + tol)%Z)
  /\ (forall a b tol : Z,
      approx_equal (LL a) (LL b) (LL tol) = true <-> (b - tol <= a /\ a <= b + tol)%Z)
  /\ (forall a b tol : Q,
      approx_equal a b tol = true <-> (b - tol <= a /\ a <= b + tol)%Q)
  /\ (forall a b tol : Z,
      (0 <= a < 2 ^ 32)%Z -> (0 <= tol <= b)%Z -> (b + tol < 2 ^ 32)%Z ->
      approx_equal (UI a) (UI b) (UI tol) = true <-> (b - tol <= a /\ a <= b + tol)%Z)
  /\ (forall a b tol : Z,
      (0 <= a < 2 ^ 32)%Z -> (0 <= b < tol)%Z -> (tol < 2 ^ 31)%Z ->
      approx_equal (UI a) (UI b) (UI tol) = false)
  /\ (approx_equal 0x1.fffffffffffffp-1%float 1%float 0x1.8p-54%float = true
      /\ approx_equal (1 - (1 # 2 ^ 53))%Q 1%Q (3 # 2 ^ 55)%Q = false)
  /\ approx_equal (11 # 10)%Q 1%Q (1 # 100)%Q = false
  /\ approx_equal 0x1.199999999999ap+0%float 1%float 0x1.47ae147ae147bp-7%float = false.
Proof.
  split; [|split; [|split; [|split; [|split; [|split; [|split]]]]]].
  - exact approx_equal_Z.
  - exact approx_equal_long_long.
  - exact approx_equal_Q.
  - exact approx_equal_unsigned_in_range.
  - exact approx_equal_unsigned_wrapped.
  - split; vm_compute; reflexivity.
  - reflexivity.
  - vm_compute. reflexivity.
Qed.

Context {T : Type} `{Number T}.

Lemma skipn_nth_error (l : list T) (i : nat) (x : T) :
  nth_error l i = Some x -> skipn i l = x :: skipn (S i) l.
Proof.
  revert l. induction i as [|i IH]; intros [|y l] Hx; simpl in Hx; try discriminate.
  - injection Hx as ->. reflexivity.
  - change (skipn i l = x :: skipn (S i) l). apply IH. exact Hx.
Qed.

Lemma deref_in_range (i : iter T) :
  (pos i < length (seq i))%nat -> exists x, deref i = Some x.
Proof.
  intros Hlt. unfold deref.
  destruct (nth_error (seq i) (pos i)) as [x|] eqn:Hx.
  - exists x. reflexivity.
  - apply nth_error_None in Hx. lia.
Qed.

Lemma deref_past_end (i : iter T) :
  (length (seq i) <= pos i)%nat -> deref i = None.
Proof.
  intros Hle. unfold deref. apply nth_error_None. exact Hle.
Qed.

(** Any fuel that covers the rest of the first sequence gives the result
    of [approx_equal_iter3]: the loop never stops for lack of fuel. *)
Lemma approx_equal_loop_fuel (fuel1 fuel2 : nat) (begin1 end1 begin2 : iter T)
    (tolerance : T) :
  (length (seq begin1) - pos begin1 <= fuel1)%nat ->
  (length (seq begin1) - pos begin1 <= fuel2)%nat ->
  approx_equal_loop fuel1 begin1 end1 begin2 tolerance
  = approx_equal_loop fuel2 begin1 end1 begin2 tolerance.
Proof.
  revert fuel2 begin1 begin2.
  induction fuel1 as [|fuel1 IH]; intros fuel2 begin1 begin2 H1 H2;
    destruct fuel2 as [|fuel2]; simpl;
    destruct (differ begin1 end1); try reflexivity.
  - rewrite deref_past_end by lia. reflexivity.
  - rewrite deref_past_end by lia. reflexivity.
  - destruct (deref begin1) as [x|] eqn:Hx; simpl; [|reflexivity].
    destruct (deref begin2) as [y|]; simpl; [|reflexivity].
    destruct (abs (x - y) > tolerance); [reflexivity|].
    assert (pos begin1 < length (seq begin1))%nat.
    { apply nth_error_Some. unfold deref in Hx. congruence. }
    apply IH; simpl; lia.
Qed.

(** The loop compares the [n] elements of the first range with the [n]
    elements that follow [begin2], provided both sequences hold them. *)
Lemma approx_equal_loop_spec (n fuel : nat) (begin1 end1 begin2 : iter T)
    (tolerance : T) :
  pos end1 = (pos begin1 + n)%nat ->
  (pos begin1 + n <= length (seq begin1))%nat ->
  (pos begin2 + n <= length (seq begin2))%nat ->
  (n <= fuel)%nat ->
  approx_equal_loop fuel begin1 end1 begin2 tolerance
  = Some (forallb (close tolerance)
            (combine (range_elements begin1 n) (range_elements begin2 n))).
Proof.
  revert fuel begin1 begin2.
  induction n as [|n IH]; intros fuel begin1 begin2 Hend Hlen1 Hlen2 Hfuel.
  - assert (Hd : differ begin1 end1 = false).
    { unfold differ. rewrite Hend, Nat.add_0_r, Nat.eqb_refl. reflexivity. }
    destruct fuel; simpl; rewrite Hd; reflexivity.
  - assert (Hd : differ begin1 end1 = true).
    { unfold differ. apply negb_true_iff, Nat.eqb_neq. lia. }
    destruct fuel as [|fuel]; [lia|]. simpl. rewrite Hd.
    destruct (deref_in_range begin1) as [x Hx]; [lia|].
    destruct (deref_in_range begin2) as [y Hy]; [lia|].
    rewrite Hx, Hy. simpl.
    unfold range_elements.
    rewrite (skipn_nth_error _ _ _ Hx), (skipn_nth_error _ _ _ Hy).
    simpl firstn. simpl combine. simpl forallb.
    unfold close at 1. simpl fst. simpl snd.
    destruct (abs (x - y) > tolerance); simpl; [reflexivity|].
    apply (IH fuel (next begin1) (next begin2)); simpl; lia.
Qed.

(** C9: the overload with two end iterators returns what the overload with
    one end iterator returns, whatever the second end iterator is; when the
    first range has [n] elements and [n] elements can be read from [begin2]
    on, exactly those [n] pairs are compared. *)
Theorem approx_equal_iter4_ignores_end2 (begin1 end1 begin2 end2 : iter T)
    (tolerance : T) :
  approx_equal_iter4 begin1 end1 begin2 end2 tolerance
  = approx_equal_iter3 begin1 end1 begin2 tolerance
  /\ (forall end2' : iter T,
        approx_equal_iter4 begin1 end1 begin2 end2' tolerance
        = approx_equal_iter4 begin1 end1 begin2 end2 tolerance)
  /\ (forall n : nat,
        pos end1 = (pos begin1 + n)%nat ->
        (pos begin1 + n <= length (seq begin1))%nat ->
        (pos begin2 + n <= length (seq begin2))%nat ->
        approx_equal_iter4 begin1 end1 begin2 end2 tolerance
        = Some (forallb (close tolerance)
                  (combine (range_elements begin1 n) (range_elements begin2 n)))).
Proof.
  split; [reflexivity|]. split; [reflexivity|].
  intros n Hend Hlen1 Hlen2.
  unfold approx_equal_iter4, approx_equal_iter3.
  apply approx_equal_loop_spec; try assumption. lia.
Qed.

End EqualityFacts.

(** On [unsigned int]: 3 is within 2 of 5, and with the tolerance 6 no
    value is within 6 of 5. *)
Lemma approx_equal_two_sided_witness :
  Equality.approx_equal (UI 3) (UI 5) (UI 2) = true
  /\ Equality.approx_equal (UI 5) (UI 5) (UI 6) = false.
Proof.
  destruct approx_equal_two_sided as [_ [_ [_ [Hin [Hwrap _]]]]].
  split.
  - apply (Hin 3 5 2)%Z; simpl; lia.
  - apply (Hwrap 5 5 6)%Z; simpl; lia.
Defined.

(** C8 as stated fails on [unsigned int]: 5 lies between [5 - 6] and
    [5 + 6], but [5u - 6u] is [2 ^ 32 - 1], and
    [approx_equal(5u, 5u, 6u)] is false. *)
Lemma approx_equal_unsigned_wraps :
  Equality.approx_equal (UI 5) (UI 5) (UI 6) = false
  /\ (5 - 6 <= 5 /\ 5 <= 5 + 6)%Z
  /\ sub (UI 5) (UI 6) = UI 4294967295
  /\ leb (sub (UI 5) (UI 6)) (UI 5) = false.
Proof.
  split; [reflexivity|]. split; [lia|]. split; reflexivity.
Qed.

(** A second range that ends after two elements is still compared on the
    three elements of the first range. *)
Lemma approx_equal_iter4_ignores_end2_witness :
  Equality.approx_equal_iter4
    (Equality.mk_iter [1; 2; 3] 0) (Equality.mk_iter [1; 2; 3] 3)
    (Equality.mk_iter [1; 2; 9] 0) (Equality.mk_iter [1; 2; 9] 2) 0
  = Some false.
Proof.
  destruct (approx_equal_iter4_ignores_end2
              (Equality.mk_iter [1; 2; 3] 0) (Equality.mk_iter [1; 2; 3] 3)
              (Equality.mk_iter [1; 2; 9] 0) (Equality.mk_iter [1; 2; 9] 2) 0)
    as [_ [_ Hn]].
  rewrite (Hn 3%nat); [reflexivity | reflexivity | simpl; lia | simpl; lia].
Defined.

(** ** [normalize] *)

Section NormalizeFacts.

Import Angle.
Local Open Scope num_scope.

Lemma normalize_as_value {P : Type} `{TurnPolicy P} (Turn : P) (a : angle Turn) :
  normalize a = option_map mk_angle (normalize_value (type Turn) (turn Turn) (v_ a)).
Proof.
  unfold normalize, normalize_value. destruct a as [v]. simpl.
  destruct ((v < of_int 0) || (v > turn Turn)); simpl.
  - destruct (fmod v (turn Turn)); reflexivity.
  - reflexivity.
Qed.

Lemma normalize_value_Z (t v : Z) :
  (0 < t)%Z -> exists v', normalize_value int_t t v = Some v' /\ normalized int_t t v v'.
Proof.
  intros Ht. unfold normalize_value, normalized. simpl.
  unfold Zfmod.
  destruct (Z.eqb_spec t 0) as [?|_]; [lia|].
  destruct (Z.ltb_spec v 0) as [Hneg|Hnn]; simpl.
  - pose proof (Z.rem_bound_pos_neg v t Ht ltac:(lia)) as Hr.
    eexists. split; [reflexivity|].
    destruct (Z.ltb_spec (Z.rem v t) 0);
      rewrite ?Z.leb_le, ?Z.ltb_lt, ?Z.eqb_eq, ?Z.eqb_neq; repeat split; intros; lia.
  - destruct (Z.ltb_spec t v) as [Hbig|Hsmall]; simpl.
    + pose proof (Z.rem_bound_pos_pos v t Ht ltac:(lia)) as Hr.
      eexists. split; [reflexivity|].
      destruct (Z.ltb_spec (Z.rem v t) 0);
        rewrite ?Z.leb_le, ?Z.ltb_lt, ?Z.eqb_eq, ?Z.eqb_neq; repeat split; intros; lia.
    + eexists. split; [reflexivity|].
      rewrite ?Z.leb_le, ?Z.ltb_lt, ?Z.eqb_eq, ?Z.eqb_neq; repeat split; intros; lia.
Qed.

Lemma normalize_value_Q (t v : Q) :
  (0 < t)%Q -> exists v', normalize_value real_t t v = Some v' /\ normalized real_t t v v'.
Proof.
  intros Ht. unfold normalize_value, normalized. simpl.
  change (inject_Z 0) with 0%Q.
  unfold Qfmod.
  assert (Hnz : Qeq_bool t 0 = false) by (apply Qeq_bool_false; lra).
  rewrite Hnz.
  destruct (Qfmod_bounds t v Ht) as [Hpos Hneg].
  set (r := (v - inject_Z (Qtrunc (v / t)) * t)%Q) in *.
  destruct (Qltb v 0) eqn:Hv0; simpl.
  - apply Qltb_lt in Hv0. destruct Hneg as [Hr1 Hr2]; [lra|].
    eexists. split; [reflexivity|].
    destruct (Qltb r 0) eqn:Hr0;
      [apply Qltb_lt in Hr0 | apply Qltb_ge in Hr0];
      rewrite ?Qle_bool_iff, ?Qltb_lt, ?Qeq_bool_false;
      repeat split; intros; try lra.
    + apply Qeq_bool_eq in H. lra.
    + apply Qeq_bool_eq in H. lra.
  - apply Qltb_ge in Hv0.
    destruct (Qltb t v) eqn:Hvt; simpl.
    + apply Qltb_lt in Hvt. destruct Hpos as [Hr1 Hr2]; [lra|].
      eexists. split; [reflexivity|].
      destruct (Qltb r 0) eqn:Hr0;
        [apply Qltb_lt in Hr0 | apply Qltb_ge in Hr0];
        rewrite ?Qle_bool_iff, ?Qltb_lt, ?Qeq_bool_false;
        repeat split; intros; try lra.
      apply Qeq_bool_eq in H. lra.
    + apply Qltb_ge in Hvt.
      eexists. split; [reflexivity|].
      rewrite ?Qle_bool_iff, ?Qltb_lt, ?Qeq_bool_false.
      repeat split; intros; try lra.
Qed.

Lemma normalize_value_range (s : scalar) (t v : carrier s) :
  (of_int 0 < t) = true ->
  exists v', normalize_value s t v = Some v' /\ normalized s t v v'.
Proof.
  destruct s; simpl; intros Ht.
  - apply normalize_value_Z. apply Z.ltb_lt. exact Ht.
  - apply normalize_value_Q. apply Qltb_lt. exact Ht.
Qed.

End NormalizeFacts.




(** The same on the rationals. *)
Example normalize_real_turn_stays :
  Angle.normalize (Angle.deg 360) = Some (Angle.deg 360)
  /\ in_half_open_turn (Angle.deg 360) = false.
Proof.
  split; reflexivity.
Qed.

(** Each turn policy of the header has a positive full turn. *)
Lemma std_turn_positive (p : Angle.std_turn) :
  ltb (of_int 0) (Angle.turn p) = true.
Proof.
  destruct p as [u s]. destruct u, s; reflexivity.
Qed.

(** * Facts about rounded.h *)

(** ** The nearest quotient *)

Open Scope Z_scope.
Lemma Znearest_quot_spec (x y : Z) :
  0 < y ->
  2 * Z.abs (x - Znearest_quot x y * y) <= y
  /\ (2 * Z.abs (x - Znearest_quot x y * y) = y -> Z.even (Znearest_quot x y) = true).
Proof.
  intros Hy. unfold Znearest_quot.
  pose proof (Z.div_mod x y ltac:(lia)) as Hx.
  pose proof (Z.mod_pos_bound x y Hy) as Hr.
  destruct (Z.compare_spec (2 * Z.abs (x mod y)) (Z.abs y)) as [He|Hl|Hg].
  - destruct (Z.even (x / y)) eqn:Hev.
    + split; [lia | intros _; exact Hev].
    + split; [lia|]. intros _.
      rewrite Z.add_1_r, Z.even_succ, <- Z.negb_even, Hev. reflexivity.
  - split; lia.
  - split; lia.
Qed.

Lemma Znearest_quot_multiple (n y : Z) : 0 < y -> Znearest_quot (n * y) y = n.
Proof.
  intros Hy. unfold Znearest_quot.
  rewrite Z.div_mul, Z.mod_mul by lia.
  destruct (Z.compare_spec (2 * Z.abs 0) (Z.abs y)); lia.
Qed.

Lemma Znearest_quot_nearest (x y m : Z) :
  0 < y -> Z.abs (x - Znearest_quot x y * y) <= Z.abs (x - m * y).
Proof.
  intros Hy. destruct (Znearest_quot_spec x y Hy) as [Hn _].
  set (n := Znearest_quot x y) in *.
  assert (Hd : m = n \/ m <= n - 1 \/ n + 1 <= m) by lia.
  destruct Hd as [-> | [Hd | Hd]]; [lia | nia | nia].
Qed.
Close Scope Z_scope.

Lemma Qnearest_spec (q : Q) :
  (2 * Qabs (q - inject_Z (Qnearest q)) <= 1
  /\ (2 * Qabs (q - inject_Z (Qnearest q)) == 1 -> Z.even (Qnearest q) = true))%Q.
Proof.
  unfold Qnearest.
  pose proof (Qfloor_le q) as Hf1. pose proof (Qlt_floor q) as Hf2.
  rewrite inject_Z_plus in Hf2. change (inject_Z 1) with 1%Q in *.
  destruct (Qcompare_spec (q - inject_Z (Qfloor q)) (1 # 2)) as [He|Hl|Hg].
  - destruct (Z.even (Qfloor q)) eqn:Hev.
    + split; [|intros _; exact Hev].
      rewrite Qabs_pos by lra. lra.
    + rewrite inject_Z_plus. change (inject_Z 1) with 1%Q.
      split.
      * rewrite Qabs_neg by lra. lra.
      * intros _. rewrite Z.add_1_r, Z.even_succ, <- Z.negb_even, Hev. reflexivity.
  - rewrite Qabs_pos by lra. split; [lra|]. intros Ht. lra.
  - rewrite inject_Z_plus. change (inject_Z 1) with 1%Q.
    rewrite Qabs_neg by lra. split; [lra|]. intros Ht. lra.
Qed.

Lemma Qnearest_comp (p q : Q) : (p == q)%Q -> Qnearest p = Qnearest q.
Proof.
  intros Hpq. unfold Qnearest.
  rewrite (Qfloor_comp p q Hpq).
  assert (Hc : ((p - inject_Z (Qfloor q)) ?= (1 # 2))%Q = ((q - inject_Z (Qfloor q)) ?= (1#2))%Q).
  { apply Qcompare_comp; [rewrite Hpq|]; reflexivity. }
  rewrite Hc. reflexivity.
Qed.

Lemma Qnearest_Z (n : Z) : Qnearest (inject_Z n) = n.
Proof.
  unfold Qnearest. rewrite Qfloor_Z.
  destruct (Qcompare_spec (inject_Z n - inject_Z n) (1 # 2)) as [He|Hl|Hg]; try reflexivity; lra.
Qed.

Lemma Qabs_cases (a : Q) : ((0 <= a /\ Qabs a == a) \/ (a <= 0 /\ Qabs a == - a))%Q.
Proof.
  destruct (Qlt_le_dec a 0) as [Hlt|Hge].
  - right. split; [lra|]. apply Qabs_neg. lra.
  - left. split; [exact Hge|]. apply Qabs_pos. exact Hge.
Qed.

(** Two different integers are at least one apart. *)
Lemma inject_Z_apart (m n : Z) :
  (inject_Z m == inject_Z n \/ inject_Z m <= inject_Z n - 1 \/ inject_Z n + 1 <= inject_Z m)%Q.
Proof.
  assert (Hd : (m = n \/ m <= n - 1 \/ n + 1 <= m)%Z) by lia.
  destruct Hd as [-> | [Hd | Hd]].
  - left. reflexivity.
  - right. left. rewrite Zle_Qle in Hd. unfold Z.sub in Hd.
    rewrite inject_Z_plus in Hd. exact Hd.
  - right. right. rewrite Zle_Qle in Hd.
    rewrite inject_Z_plus in Hd. exact Hd.
Qed.

Lemma Qnearest_nearest (q : Q) (m : Z) :
  (Qabs (q - inject_Z (Qnearest q)) <= Qabs (q - inject_Z m))%Q.
Proof.
  destruct (Qnearest_spec q) as [Hn _].
  destruct (inject_Z_apart m (Qnearest q)) as [He | [Hd | Hd]].
  - rewrite He. lra.
  - destruct (Qabs_cases (q - inject_Z (Qnearest q))) as [[? Ha] | [? Ha]];
      destruct (Qabs_cases (q - inject_Z m)) as [[? Hb] | [? Hb]];
      rewrite Ha in *; rewrite Hb; lra.
  - destruct (Qabs_cases (q - inject_Z (Qnearest q))) as [[? Ha] | [? Ha]];
      destruct (Qabs_cases (q - inject_Z m)) as [[? Hb] | [? Hb]];
      rewrite Ha in *; rewrite Hb; lra.
Qed.

(** ** The rounding methods *)

Section RoundingFacts.

Import Rounded.
Local Open Scope num_scope.

Lemma remainder_nearest_Z (u x : Z) :
  (0 < u)%Z ->
  exists r, Zremainder x u = Some r /\ nearest_multiple int_t u x (x - r)%Z.
Proof.
  intros Hu. unfold Zremainder.
  destruct (Z.eqb_spec u 0) as [?|_]; [lia|].
  eexists. split; [reflexivity|].
  exists (Znearest_quot x u). simpl.
  destruct (Znearest_quot_spec x u Hu) as [Hhalf Htie].
  replace (x - (x - Znearest_quot x u * u))%Z with (Znearest_quot x u * u)%Z by lia.
  rewrite Z.eqb_refl, Z.leb_le. repeat split.
  - exact Hhalf.
  - intros He. apply Z.eqb_eq in He. apply Htie. exact He.
  - intros m. apply Z.leb_le. apply Znearest_quot_nearest. exact Hu.
Qed.

Lemma remainder_nearest_Q (u x : Q) :
  (0 < u)%Q ->
  exists r, Qremainder x u = Some r /\ nearest_multiple real_t u x (x - r)%Q.
Proof.
  intros Hu. unfold Qremainder.
  assert (Hnz : Qeq_bool u 0 = false) by (apply Qeq_bool_false; lra).
  rewrite Hnz. eexists. split; [reflexivity|].
  exists (Qnearest (x / u)).
  cbn [carrier_Number Q_Number eqb leb ltb sub mul abs of_int].
  assert (Hx : (x == x / u * u)%Q) by (apply Qdiv_times; lra).
  destruct (Qnearest_spec (x / u)) as [Hhalf Htie].
  pose proof (Qnearest_nearest (x / u)) as Hnear.
  set (q := (x / u)%Q) in *. set (n := inject_Z (Qnearest q)) in *.
  assert (Hxn : (x - n * u == (q - n) * u)%Q) by (rewrite Hx at 1; ring).
  assert (Hd : (x - (x - (x - n * u)) == (q - n) * u)%Q) by (rewrite <- Hxn; ring).
  assert (Habs : (Qabs (x - (x - (x - n * u))) == Qabs (q - n) * u)%Q).
  { rewrite Hd, Qabs_Qmult, (Qabs_pos u) by lra. reflexivity. }
  pose proof (Qabs_nonneg (q - n)) as Hnn.
  repeat split.
  - apply Qeq_eq_bool. ring.
  - apply Qle_bool_iff. rewrite Habs. change (inject_Z 2) with 2%Q. nra.
  - intros He. apply Qeq_bool_eq in He. rewrite Habs in He.
    change (inject_Z 2) with 2%Q in He. apply Htie. nra.
  - intros m. apply Qle_bool_iff. rewrite Habs.
    assert (Hm : (x - inject_Z m * u == (q - inject_Z m) * u)%Q) by (rewrite Hx at 1; ring).
    rewrite Hm, Qabs_Qmult, (Qabs_pos u) by lra.
    specialize (Hnear m). nra.
Qed.

Lemma remainder_nearest (s : scalar) (u x : carrier s) :
  (of_int 0 < u) = true ->
  exists r, remainder x u = Some r /\ nearest_multiple s u x (x - r).
Proof.
  destruct s; simpl; intros Hu.
  - apply remainder_nearest_Z. apply Z.ltb_lt. exact Hu.
  - apply remainder_nearest_Q. apply Qltb_lt. exact Hu.
Qed.

(** The unit that the constructor stores is positive. *)
Lemma unit_positive (s : scalar) (u : carrier s) :
  (of_int 0 < unit_ (mk_round_to_nearest u)) = true.
Proof.
  destruct s; simpl.
  - destruct (Z.leb_spec u 0); [reflexivity | apply Z.ltb_lt; assumption].
  - change (inject_Z 0) with 0%Q.
    destruct (Qle_bool u 0) eqn:Hu; [reflexivity|].
    unfold Qltb. rewrite Hu. reflexivity.
Qed.

End RoundingFacts.

(** ** [long long] and [double] *)

Lemma Znearest_quot_ge (x y : Z) : (x / y <= Znearest_quot x y)%Z.
Proof.
  unfold Znearest_quot.
  destruct (2 * Z.abs (x mod y) ?= Z.abs y)%Z; [destruct (Z.even (x / y))| |]; lia.
Qed.

(** The integers up to [2 ^ 53] are [double] values. *)
Lemma round_to_double_exact (x : Z) : (Z.abs x <= 2 ^ 53)%Z -> round_to_double x = x.
Proof.
  intros Hx. unfold round_to_double. apply Z.leb_le in Hx. rewrite Hx. reflexivity.
Qed.

Lemma round_to_double_pos (x : Z) : (0 < x)%Z -> (0 < round_to_double x)%Z.
Proof.
  intros Hx. unfold round_to_double.
  destruct (Z.abs x <=? 2 ^ 53)%Z eqn:Hs; [exact Hx|].
  apply Z.leb_gt in Hs. rewrite Z.abs_eq in * by lia. rewrite Z.sgn_pos by exact Hx.
  assert (Hlog : (53 <= Z.log2 x)%Z) by (apply Z.log2_le_pow2; lia).
  set (e := (Z.log2 x - 52)%Z).
  assert (Hulp : (0 < 2 ^ e)%Z) by (apply Z.pow_pos_nonneg; unfold e; lia).
  assert (Hle : (2 ^ e <= x)%Z).
  { apply Z.le_trans with (2 ^ Z.log2 x)%Z.
    - apply Z.pow_le_mono_r; unfold e; lia.
    - apply Z.log2_spec. exact Hx. }
  pose proof (Znearest_quot_ge x (2 ^ e)) as Hq.
  pose proof (Z.div_str_pos x (2 ^ e) ltac:(lia)) as Hd.
  nia.
Qed.

(** The order of [double]: a number that is not NaN and not [<= 0] is
    positive. *)
Lemma double_not_le_0 (u : double) :
  is_nan u = false -> (u <=? 0)%float = false ->
  (0 <? u)%float = true /\ (u =? 0)%float = false.
Proof.
  unfold is_nan.
  rewrite FloatAxioms.leb_spec, FloatAxioms.ltb_spec, !FloatAxioms.eqb_spec.
  change (Prim2SF 0) with (S754_zero false).
  destruct (Prim2SF u) as [s | s | | s m e]; try destruct s; cbn; intros Hn Hle;
    try discriminate; split; reflexivity.
Qed.

Lemma double_of_int_0 : of_int (T := double) 0 = 0%float.
Proof. vm_compute. reflexivity. Qed.

(** C7, as the code has it: the constructor of [round_to_nearest<T>]
    replaces an argument [u <= 0] by 1 for an integral [T] and by the
    machine epsilon for a real-valued [T], and stores any other argument as
    it is.  For every argument but a NaN the stored unit is positive and
    not zero, so that the remainder the method takes, and the method
    itself, have a result: on the exact types, on [long long] and
    [unsigned int], and on [double] for an argument that is not NaN. *)
Theorem round_to_nearest_unit_positive :
  (forall u : Z, (u <= 0)%Z -> Rounded.unit_ (Rounded.mk_round_to_nearest u) = 1%Z)
  /\ (forall u : Q, (u <= 0)%Q -> Rounded.unit_ (Rounded.mk_round_to_nearest u) = Qepsilon)
  /\ (forall (s : scalar) (u : carrier s),
        leb u (of_int 0) = true ->
        Rounded.unit_ (Rounded.mk_round_to_nearest u)
        = if is_integral (T := carrier s) then of_int 1 else epsilon)
  /\ (forall (s : scalar) (u : carrier s),
        leb u (of_int 0) = false ->
        Rounded.unit_ (Rounded.mk_round_to_nearest u) = u)
  /\ (forall (s : scalar) (u x : carrier s),
        let rm := Rounded.mk_round_to_nearest u in
        ltb (of_int 0) (Rounded.unit_ rm) = true
        /\ eqb (Rounded.unit_ rm) (of_int 0) = false
        /\ (exists r, remainder x (Rounded.unit_ rm) = Some r)
        /\ (exists y, Rounded.call rm x = Some y))
  /\ (forall u x : Z,
        let rm := Rounded.mk_round_to_nearest (LL u) in
        Rounded.unit_ rm = LL (if (u <=? 0)%Z then 1 else u)
        /\ ltb (of_int 0) (Rounded.unit_ rm) = true
        /\ eqb (Rounded.unit_ rm) (of_int 0) = false
        /\ (exists y, Rounded.call rm (LL x) = Some y))
  /\ (forall u : Z,
        (0 <= u < 2 ^ 32)%Z ->
        let rm := Rounded.mk_round_to_nearest (UI u) in
        Rounded.unit_ rm = UI (if (u =? 0)%Z then 1 else u)
        /\ ltb (of_int 0) (Rounded.unit_ rm) = true
        /\ eqb (Rounded.unit_ rm) (of_int 0) = false)
  /\ (forall u : double,
        is_nan u = false ->
        let rm := Rounded.mk_round_to_nearest u in
        (leb u (of_int 0) = true -> Rounded.unit_ rm = 0x1p-52%float)
        /\ (leb u (of_int 0) = false -> Rounded.unit_ rm = u)
        /\ ltb (of_int 0) (Rounded.unit_ rm) = true
        /\ eqb (Rounded.unit_ rm) (of_int 0) = false
        /\ is_nan (Rounded.unit_ rm) = false).
Proof.
  split; [|split; [|split; [|split; [|split; [|split; [|split]]]]]].
  - intros u Hu. simpl. apply Z.leb_le in Hu. rewrite Hu. reflexivity.
  - intros u Hu. simpl. apply Qle_bool_iff in Hu.
    change (inject_Z 0) with 0%Q. rewrite Hu. reflexivity.
  - intros s u Hu. simpl. rewrite Hu. reflexivity.
  - intros s u Hu. simpl. rewrite Hu. reflexivity.
  - intros s u x rm.
    pose proof (unit_positive s u) as Hpos. fold rm in Hpos.
    destruct (remainder_nearest s (Rounded.unit_ rm) x Hpos) as [r [Hr _]].
    repeat split.
    + exact Hpos.
    + destruct s; simpl in *.
      * apply Z.ltb_lt in Hpos. apply Z.eqb_neq. lia.
      * apply Qltb_lt in Hpos. apply Qeq_bool_false.
        change (inject_Z 0) with 0%Q in *. lra.
    + exists r. exact Hr.
    + exists (sub x r). cbn [Rounded.call Rounded.round_to_nearest_method].
      rewrite round_to_nearest_call_exact, Hr. reflexivity.
  - intros u x rm. unfold rm, Rounded.mk_round_to_nearest.
    cbn [Rounded.unit_ long_long_Number leb ltb eqb of_int is_integral ll].
    assert (Hunit : (if (u <=? 0)%Z then LL 1 else LL u)
                    = LL (if (u <=? 0)%Z then 1 else u))
      by (destruct (u <=? 0)%Z; reflexivity).
    rewrite Hunit. cbn [ll].
    assert (Hpos : (0 < (if (u <=? 0)%Z then 1 else u))%Z)
      by (destruct (Z.leb_spec u 0); lia).
    repeat split.
    + apply Z.ltb_lt. exact Hpos.
    + apply Z.eqb_neq. lia.
    + cbn [Rounded.call Rounded.round_to_nearest_method].
      unfold Rounded.round_to_nearest_call.
      cbn [Rounded.unit_ long_long_Number remainder ll]. unfold Zremainder.
      assert (Hnz : (round_to_double (if (u <=? 0)%Z then 1 else u) =? 0)%Z = false).
      { apply Z.eqb_neq. pose proof (round_to_double_pos _ Hpos). lia. }
      rewrite Hnz. cbn [option_map bind]. eexists. reflexivity.
  - intros u Hu rm. unfold rm, Rounded.mk_round_to_nearest.
    cbn [Rounded.unit_ unsigned_int_Number leb ltb eqb of_int is_integral ui].
    change (wrap32 0) with 0%Z. change (wrap32 1) with 1%Z.
    destruct (Z.eqb_spec u 0) as [->|Hnz].
    + repeat split.
    + destruct (Z.leb_spec u 0) as [?|_]; [lia|]. cbn [Rounded.unit_ ui].
      repeat split; [apply Z.ltb_lt | apply Z.eqb_neq]; lia.
  - intros u Hnan rm. unfold rm, Rounded.mk_round_to_nearest.
    cbn [Rounded.unit_ double_Number leb ltb eqb is_integral epsilon].
    rewrite double_of_int_0.
    destruct (u <=? 0)%float eqn:Hle.
    + repeat split; try reflexivity. discriminate.
    + destruct (double_not_le_0 u Hnan Hle) as [Hpos Hnz].
      repeat split; try assumption; try reflexivity. discriminate.
Qed.

(** A zero unit on the integers, a negative one on the rationals and on
    [double]. *)
Lemma round_to_nearest_unit_positive_witness :
  Rounded.unit_ (Rounded.mk_round_to_nearest 0%Z) = 1%Z
  /\ Rounded.unit_ (Rounded.mk_round_to_nearest (-3 # 2)%Q) = Qepsilon
  /\ Rounded.unit_ (Rounded.mk_round_to_nearest (-1.5)%float) = 0x1p-52%float.
Proof.
  split; [|split].
  - apply (proj1 round_to_nearest_unit_positive 0%Z). lia.
  - apply (proj1 (proj2 round_to_nearest_unit_positive) (-3 # 2)%Q). lra.
  - apply (proj2 (proj2 (proj2 (proj2 (proj2 (proj2 (proj2
             round_to_nearest_unit_positive))))))
             (-1.5)%float); reflexivity.
Defined.

(** C7 as stated fails for a NaN argument on [double]: NaN is not
    [<= 0], so it is stored as the unit, which then is not positive; the
    method returns NaN. *)
Lemma round_to_nearest_nan_unit :
  let rm := Rounded.mk_round_to_nearest (nan : double) in
  leb (nan : double) (of_int 0) = false
  /\ is_nan (Rounded.unit_ rm) = true
  /\ ltb (of_int 0) (Rounded.unit_ rm) = false
  /\ Rounded.call rm 1%float = Some nan.
Proof.
  vm_compute. repeat split.
Qed.

(** On [long long] the method [round_to_nearest] with the unit [u] gives
    the nearest multiple of [u] as long as [double] holds all the values:
    the argument, the unit and the result. *)
Lemma long_long_call_nearest (u x : Z) :
  (0 < u)%Z -> (Z.abs x + u <= 2 ^ 53)%Z ->
  Rounded.call (Rounded.mk_round_to_nearest (LL u)) (LL x)
  = Some (LL (Znearest_quot x u * u)).
Proof.
  intros Hu Hx.
  cbn [Rounded.call Rounded.round_to_nearest_method].
  unfold Rounded.round_to_nearest_call, Rounded.mk_round_to_nearest.
  cbn [Rounded.unit_ long_long_Number leb of_int is_integral ll remainder promote sub].
  destruct (Z.leb_spec u 0) as [?|_]; [lia|]. cbn [ll].
  rewrite (round_to_double_exact x), (round_to_double_exact u) by lia.
  unfold Zremainder. destruct (Z.eqb_spec u 0) as [?|_]; [lia|].
  cbn [option_map bind ll].
  destruct (Znearest_quot_spec x u Hu) as [Hhalf _].
  replace (x - (x - Znearest_quot x u * u))%Z with (Znearest_quot x u * u)%Z by lia.
  rewrite round_to_double_exact by lia. reflexivity.
Qed.

(** C4, as the code has it: the method [round_to_nearest<T>] takes the
    remainder [r] of [x] by its unit [u] and returns [x - r], computed in
    the floating-point type of [remainder] and converted to [T].  Where
    that is exact (the exact types; [long long] with [|x| + u <= 2 ^ 53])
    the result is the multiple of [u] nearest to [x], a tie going to the
    even multiple.  With the unit 2 a [rounded] made from 7 stores 8 and
    one made from 5 stores 4, on every type of the model. *)
Theorem round_to_nearest_snaps :
  (forall (s : scalar) (u x : carrier s),
      let rm := Rounded.mk_round_to_nearest u in
      exists r,
        remainder x (Rounded.unit_ rm) = Some r
        /\ Rounded.call rm x = Some (sub x r)
        /\ nearest_multiple s (Rounded.unit_ rm) x (sub x r))
  /\ (forall u x : Z,
        (0 < u)%Z -> (Z.abs x + u <= 2 ^ 53)%Z ->
        exists n : Z,
          Rounded.call (Rounded.mk_round_to_nearest (LL u)) (LL x) = Some (LL (n * u))
          /\ (2 * Z.abs (x - n * u) <= u)%Z
          /\ ((2 * Z.abs (x - n * u) = u)%Z -> Z.even n = true)
          /\ (forall m : Z, (Z.abs (x - n * u) <= Z.abs (x - m * u))%Z))
  /\ option_map Rounded.value
       (Rounded.rounded_from 7%Z (Rounded.mk_round_to_nearest 2%Z)) = Some 8%Z
  /\ option_map Rounded.value
       (Rounded.rounded_from 5%Z (Rounded.mk_round_to_nearest 2%Z)) = Some 4%Z
  /\ option_map Rounded.value
       (Rounded.rounded_from 7%Q (Rounded.mk_round_to_nearest 2%Q)) = Some 8%Q
  /\ option_map Rounded.value
       (Rounded.rounded_from 5%Q (Rounded.mk_round_to_nearest 2%Q)) = Some 4%Q
  /\ option_map Rounded.value
       (Rounded.rounded_from (LL 7) (Rounded.mk_round_to_nearest (LL 2))) = Some (LL 8)
  /\ option_map Rounded.value
       (Rounded.rounded_from (LL 5) (Rounded.mk_round_to_nearest (LL 2))) = Some (LL 4)
  /\ option_map Rounded.value
       (Rounded.rounded_from 7%float (Rounded.mk_round_to_nearest 2%float)) = Some 8%float
  /\ option_map Rounded.value
       (Rounded.rounded_from 5%float (Rounded.mk_round_to_nearest 2%float)) = Some 4%float.
Proof.
  split; [|split; [|repeat split; vm_compute; reflexivity]].
  - intros s u x rm.
    pose proof (unit_positive s u) as Hpos. fold rm in Hpos.
    destruct (remainder_nearest s (Rounded.unit_ rm) x Hpos) as [r [Hr Hn]].
    exists r. repeat split.
    + exact Hr.
    + cbn [Rounded.call Rounded.round_to_nearest_method].
      rewrite round_to_nearest_call_exact, Hr. reflexivity.
    + exact Hn.
  - intros u x Hu Hx. exists (Znearest_quot x u).
    destruct (Znearest_quot_spec x u Hu) as [Hhalf Htie].
    split; [apply long_long_call_nearest; assumption|].
    split; [exact Hhalf|]. split; [exact Htie|].
    intros m. apply Znearest_quot_nearest. exact Hu.
Qed.

(** On [long long], 11 with the unit 4 becomes 12. *)
Lemma round_to_nearest_snaps_witness :
  exists n : Z,
    Rounded.call (Rounded.mk_round_to_nearest (LL 4)) (LL 11) = Some (LL (n * 4))
    /\ (2 * Z.abs (11 - n * 4) <= 4)%Z.
Proof.
  destruct (proj1 (proj2 round_to_nearest_snaps) 4%Z 11%Z) as [n [Hc [Hh _]]];
    [lia | simpl; lia |].
  exists n. split; [exact Hc | exact Hh].
Defined.

(** C4 as stated fails on [long long] above [2 ^ 53]: with the unit 3,
    [2 ^ 53 + 2] has the remainder 1, but the difference [2 ^ 53 + 1], a
    multiple of 3, is no [double], and the method returns [2 ^ 53], which
    is no multiple of 3. *)
Lemma round_to_nearest_long_long_inexact :
  let rm := Rounded.mk_round_to_nearest (LL 3) in
  let x := LL (2 ^ 53 + 2) in
  remainder x (Rounded.unit_ rm) = Some (LL 1)
  /\ sub x (LL 1) = LL (3 * 3002399751580331)
  /\ Rounded.call rm x = Some (LL (2 ^ 53))
  /\ Z.rem (2 ^ 53) 3 = 2%Z.
Proof.
  vm_compute. repeat split.
Qed.

(** The other ties of the unit 2 go to the multiple of 4 as well. *)
Example round_to_nearest_ties :
  map (fun x => option_map Rounded.value
                  (Rounded.rounded_from x (Rounded.mk_round_to_nearest 2%Z)))
      [1; 3; 5; 7; 9; -1; -3; -5]%Z
  = map Some [0; 4; 4; 8; 8; 0; -4; -4]%Z.
Proof. reflexivity. Qed.

(** ** The invariant of [rounded] *)

Section RoundedFacts.

Import Rounded.
Local Open Scope num_scope.


(** A multiple of the unit is a fixed point of the rounding. *)
Lemma multiple_fixed (s : scalar) (u y : carrier s) (n : Z) :
  (of_int 0 < u) = true -> (y == of_int n * u) = true ->
  exists r, remainder y u = Some r /\ (y - r == y) = true.
Proof.
  destruct s; cbn [carrier_Number Z_Number Q_Number eqb leb ltb sub mul abs of_int remainder];
    intros Hu Hy.
  - apply Z.ltb_lt in Hu. apply Z.eqb_eq in Hy. subst y.
    unfold Zremainder. destruct (Z.eqb_spec u 0) as [?|_]; [lia|].
    eexists. split; [reflexivity|].
    rewrite Znearest_quot_multiple by exact Hu. apply Z.eqb_eq. lia.
  - apply Qltb_lt in Hu. apply Qeq_bool_eq in Hy.
    change (inject_Z 0) with 0%Q in Hu.
    unfold Qremainder.
    assert (Hnz : Qeq_bool u 0 = false) by (apply Qeq_bool_false; lra).
    rewrite Hnz. eexists. split; [reflexivity|].
    assert (Hq : (y / u == inject_Z n)%Q).
    { rewrite Hy. apply Qdiv_mult_l. lra. }
    rewrite (Qnearest_comp _ _ Hq), Qnearest_Z.
    apply Qeq_eq_bool. rewrite Hy. ring.
Qed.

(** Each method of the library is idempotent. *)
Lemma call_idempotent (s : scalar) (R : Type) (RM : RoundingMethod (carrier s) R)
    (rm : R) :
  library_method s R RM rm ->
  forall v, exists w, call rm v = Some w /\ exists w', call rm w = Some w' /\ (w == w') = true.
Proof.
  intros [|u] v.
  - cbn [call round_to_nearest_int_method]. unfold round_to_nearest_int_call.
    eexists. split; [reflexivity|]. eexists. split; [reflexivity|].
    destruct s; simpl.
    + apply Z.eqb_refl.
    + rewrite Qnearest_Z. apply Qeq_bool_refl.
  - cbn [call round_to_nearest_method]. rewrite round_to_nearest_call_exact.
    pose proof (unit_positive s u) as Hpos.
    destruct (remainder_nearest s _ v Hpos) as [r [Hr [n [Hn _]]]].
    rewrite Hr. cbn [bind].
    eexists. split; [reflexivity|].
    destruct (multiple_fixed s _ _ n Hpos Hn) as [r' [Hr' Hfix]].
    rewrite round_to_nearest_call_exact, Hr'. cbn [bind].
    eexists. split; [reflexivity|].
    destruct s; cbn [carrier_Number Z_Number Q_Number eqb] in *.
    + rewrite Z.eqb_sym. exact Hfix.
    + apply Qeq_bool_sym. exact Hfix.
Qed.


Lemma rounded_from_corrected (s : scalar) (R : Type) (RM : RoundingMethod (carrier s) R)
    (rm : R) (v : carrier s) :
  library_method s R RM rm ->
  exists x, rounded_from v rm = Some x /\ method x = rm /\ in_corrected_form x = true.
Proof.
  intros Hlib.
  destruct (call_idempotent s R RM _ Hlib v) as [w [Hw [w' [Hw' Heq]]]].
  exists (mk_rounded rm w). unfold rounded_from, corrected_with. rewrite Hw.
  repeat split. unfold in_corrected_form, corrected. simpl. rewrite Hw'. exact Heq.
Qed.



(** Every mutating operation stores the corrected form of some value. *)
Lemma after_stores {T R : Type} `{Number T} `{RoundingMethod T R}
    (m : mutation T R) (x x' : rounded T R) :
  after m x = Some x' -> exists v, store x v = Some x'.
Proof.
  intros Hafter.
  destruct m; cbn [after] in Hafter;
    unfold assign, add_assign, sub_assign, mul_assign, div_assign, pre_inc, pre_dec,
      post_inc, post_dec, add_assign_r, sub_assign_r, mul_assign_r, div_assign_r,
      mod_assign_r in Hafter;
    try (eexists; exact Hafter).
  - apply bind_Some in Hafter. destruct Hafter as [q [_ Hs]]. eexists; exact Hs.
  - unfold pre_inc in Hafter. destruct (store x (v_ x + of_int 1)) as [y|] eqn:Hs;
      [|discriminate]. simpl in Hafter. injection Hafter as <-. eexists; exact Hs.
  - unfold pre_dec in Hafter. destruct (store x (v_ x - of_int 1)) as [y|] eqn:Hs;
      [|discriminate]. simpl in Hafter. injection Hafter as <-. eexists; exact Hs.
  - apply bind_Some in Hafter. destruct Hafter as [q [_ Hs]]. eexists; exact Hs.
  - apply bind_Some in Hafter. destruct Hafter as [q [_ Hs]]. eexists; exact Hs.
Qed.

(** A [long long] beyond [2 ^ 53] stays beyond it when it is rounded to a
    [double]. *)
Lemma round_to_double_large (x : Z) :
  (2 ^ 53 < Z.abs x)%Z -> (2 ^ 53 <= Z.abs (round_to_double x))%Z.
Proof.
  intros Hx. unfold round_to_double.
  destruct (Z.leb_spec (Z.abs x) (2 ^ 53)) as [?|_]; [lia|].
  assert (Hlog : (53 <= Z.log2 (Z.abs x))%Z) by (apply Z.log2_le_pow2; lia).
  set (e := (Z.log2 (Z.abs x) - 52)%Z).
  assert (Hulp : (2 <= 2 ^ e)%Z).
  { change 2%Z with (2 ^ 1)%Z at 1. apply Z.pow_le_mono_r; unfold e; lia. }
  assert (Hpow : (2 ^ Z.log2 (Z.abs x) = 2 ^ 52 * 2 ^ e)%Z).
  { rewrite <- Z.pow_add_r by (unfold e; lia). f_equal. unfold e. lia. }
  assert (Hle : (2 ^ Z.log2 (Z.abs x) <= Z.abs x)%Z) by (apply Z.log2_spec; lia).
  assert (Hq : (2 ^ 52 <= Z.abs x / 2 ^ e)%Z).
  { apply Z.div_le_lower_bound; lia. }
  pose proof (Znearest_quot_ge (Z.abs x) (2 ^ e)) as Hn.
  rewrite Z.abs_mul.
  assert (Hsgn : Z.abs (Z.sgn x) = 1%Z) by (destruct x; simpl in *; lia).
  rewrite Hsgn. nia.
Qed.

(** On [long long], a value that [round_to_nearest] returns and that,
    with the unit added, stays within [2 ^ 53], is a multiple of the unit
    and is returned for itself. *)
Lemma long_long_call_multiple (u w y : Z) :
  (0 < u)%Z ->
  call (mk_round_to_nearest (LL u)) (LL w) = Some (LL y) ->
  (Z.abs y + u <= 2 ^ 53)%Z ->
  exists n : Z, y = (n * u)%Z.
Proof.
  intros Hu Hc Hy.
  cbn [call round_to_nearest_method] in Hc.
  unfold round_to_nearest_call, mk_round_to_nearest in Hc.
  cbn [unit_ long_long_Number leb of_int is_integral ll remainder promote sub] in Hc.
  destruct (Z.leb_spec u 0) as [?|_]; [lia|]. cbn [ll] in Hc.
  rewrite (round_to_double_exact u) in Hc by lia.
  unfold Zremainder in Hc. destruct (Z.eqb_spec u 0) as [?|_]; [lia|].
  cbn [option_map bind ll] in Hc.
  set (n := Znearest_quot (round_to_double w) u) in *.
  replace (round_to_double w - (round_to_double w - n * u))%Z with (n * u)%Z in Hc by lia.
  injection Hc as Hy'.
  assert (Hn : (Z.abs (n * u) <= 2 ^ 53)%Z).
  { destruct (Z.le_gt_cases (Z.abs (n * u)) (2 ^ 53)) as [Hle|Hgt]; [exact Hle|].
    pose proof (round_to_double_large (n * u) Hgt) as Hl. rewrite Hy' in Hl. lia. }
  rewrite round_to_double_exact in Hy' by exact Hn. exists n. symmetry. exact Hy'.
Qed.




End RoundedFacts.



Example rounded_steps :
  (x <- Rounded.rounded_from 7%Z (Rounded.mk_round_to_nearest 2%Z) ;;
   y <- Rounded.add_assign x 3%Z ;;
   z <- Rounded.pre_inc y ;;
   Some (Rounded.value x, Rounded.value y, Rounded.value z))
  = Some (8, 12, 12)%Z.
Proof. reflexivity. Qed.

(** C3: the binary operators [+], [-], [*], [/], [%] on two [rounded]
    values, or on a [rounded] value and a number in either order, return
    the result of the operator on the stored values: a number, which no
    rounding method is applied to; so the sum of a value rounded to
    multiples of 2 and the number 1 is not such a multiple. *)
Theorem binary_operators_plain :
  (forall (T : Type) (N : Number T) (R1 R2 : Type)
          (x : Rounded.rounded T R1) (y : Rounded.rounded T R2) (n : T),
      Rounded.plus x y = add (Rounded.value x) (Rounded.value y)
      /\ Rounded.plus_n x n = add (Rounded.value x) n
      /\ Rounded.n_plus n x = add n (Rounded.value x)
      /\ Rounded.minus x y = sub (Rounded.value x) (Rounded.value y)
      /\ Rounded.minus_n x n = sub (Rounded.value x) n
      /\ Rounded.n_minus n x = sub n (Rounded.value x)
      /\ Rounded.times x y = mul (Rounded.value x) (Rounded.value y)
      /\ Rounded.times_n x n = mul (Rounded.value x) n
      /\ Rounded.n_times n x = mul n (Rounded.value x)
      /\ Rounded.divide x y = div (Rounded.value x) (Rounded.value y)
      /\ Rounded.divide_n x n = div (Rounded.value x) n
      /\ Rounded.n_divide n x = div n (Rounded.value x)
      /\ Rounded.modulus x y = modulo (Rounded.value x) (Rounded.value y)
      /\ Rounded.modulus_n x n = modulo (Rounded.value x) n
      /\ Rounded.n_modulus n x = modulo n (Rounded.value x))
  /\ (exists x : Rounded.rounded Z (Rounded.round_to_nearest Z),
        Rounded.rounded_from 4%Z (Rounded.mk_round_to_nearest 2%Z) = Some x
        /\ Rounded.plus_n x 1%Z = 5%Z
        /\ Rounded.corrected x (Rounded.plus_n x 1%Z) = Some 4%Z).
Proof.
  split.
  - intros T N R1 R2 x y n. repeat split.
  - eexists. repeat split.
Qed.

(** C10: unary minus builds its result from the negated value and a
    default-constructed rounding method, not the operand's one.  For
    [round_to_nearest] the default unit is 1 (integral) or epsilon, so
    after [x = 4] with unit 2, [-x] plus 1 stores -3, whereas -4 with the
    unit of [x], plus 1, stores -4. *)
Theorem negate_default_method :
  (forall (T : Type) (N : Number T) (R : Type) (RM : Rounded.RoundingMethod T R)
          (x : Rounded.rounded T R),
      Rounded.negate x = Rounded.rounded_from (neg (Rounded.value x)) Rounded.default_method)
  /\ (forall (s : scalar) (x : Rounded.rounded (carrier s) (Rounded.round_to_nearest (carrier s))),
        exists y,
          Rounded.negate x = Some y
          /\ Rounded.method y = Rounded.mk_round_to_nearest (of_int 0)
          /\ Rounded.unit_ (Rounded.method y)
             = if is_integral (T := carrier s) then of_int 1 else epsilon)
  /\ (exists (x y y1 z z1 : Rounded.rounded Z (Rounded.round_to_nearest Z)),
        Rounded.rounded_from 4%Z (Rounded.mk_round_to_nearest 2%Z) = Some x
        /\ Rounded.unit_ (Rounded.method x) = 2%Z
        /\ Rounded.negate x = Some y
        /\ Rounded.add_assign y 1%Z = Some y1
        /\ Rounded.rounded_from (neg (Rounded.value x)) (Rounded.method x) = Some z
        /\ Rounded.add_assign z 1%Z = Some z1
        /\ Rounded.value y = Rounded.value z
        /\ Rounded.value y1 = (-3)%Z
        /\ Rounded.value z1 = (-4)%Z).
Proof.
  split; [|split].
  - intros T N R RM x. reflexivity.
  - intros s x.
    destruct (rounded_from_corrected s _ _ (Rounded.mk_round_to_nearest (of_int 0))
                (neg (Rounded.value x)) (nearest_object s (of_int 0)))
      as [y [Hy [Hm _]]].
    exists y. split; [exact Hy|]. split; [exact Hm|].
    rewrite Hm. destruct s; reflexivity.
  - do 5 eexists. repeat split.
Qed.


(** * angle.h: the other operations *)

Module AngleOps.

Import Angle.
Local Open Scope num_scope.

(** A comparison of two numbers of possibly different types: both are
    converted to their common type first. *)
Definition compare_numbers (op : forall s : scalar, carrier s -> carrier s -> bool)
    (x y : number) : bool :=
  let C := common_type (projT1 x) (projT1 y) in
  op C (convert _ C (projT2 x)) (convert _ C (projT2 y)).

Section AngleOps.

Context {P : Type} `{TurnPolicy P}.

(** [angle_cast<OutTurn>(a)] *)
Definition angle_cast {U : P} (OutTurn : P) (a : angle U) : option number :=
  as_ OutTurn a.

(** The converting constructor and [operator = (const angle<T>&)]: the
    result of [a.as<turn_type>()] is stored as a [numeric_type]. *)
Definition angle_from {U : P} (Turn : P) (a : angle U) : option (angle Turn) :=
  n <- as_ Turn a ;;
  Some (mk_angle (convert (projT1 n) (type Turn) (projT2 n))).

Section Members.

Context {Turn : P}.

(** [+=], [-=], [*=], [/=] *)
Definition add_assign (a b : angle Turn) : angle Turn := mk_angle (v_ a + v_ b).

Definition sub_assign (a b : angle Turn) : angle Turn := mk_angle (v_ a - v_ b).

Definition mul_assign (a : angle Turn) (factor : carrier (type Turn)) : angle Turn :=
  mk_angle (v_ a * factor).

Definition div_assign (a : angle Turn) (factor : carrier (type Turn)) : option (angle Turn) :=
  q <- div (v_ a) factor ;;
  Some (mk_angle q).

(** [+], [-], [*], [/] and the multiplication with the factor first *)
Definition plus (a b : angle Turn) : angle Turn := mk_angle (v_ a + v_ b).

Definition minus (a b : angle Turn) : angle Turn := mk_angle (v_ a - v_ b).

Definition times (a : angle Turn) (factor : carrier (type Turn)) : angle Turn :=
  mk_angle (v_ a * factor).

Definition divide (a : angle Turn) (factor : carrier (type Turn)) : option (angle Turn) :=
  q <- div (v_ a) factor ;;
  Some (mk_angle q).


(** Unary minus *)
Definition negate (a : angle Turn) : angle Turn := mk_angle (- v_ a).

(** [++] and [--]: the prefix forms return the new angle, the postfix
    forms the old one; the second component is the object afterwards. *)
Definition pre_inc (a : angle Turn) : angle Turn := mk_angle (v_ a + of_int 1).

Definition pre_dec (a : angle Turn) : angle Turn := mk_angle (v_ a - of_int 1).

Definition post_inc (a : angle Turn) : angle Turn * angle Turn :=
  let old := a in (old, pre_inc a).

Definition post_dec (a : angle Turn) : angle Turn * angle Turn :=
  let old := a in (old, pre_dec a).

(** The comparisons with an angle of any turn policy: the other angle is
    converted to this angle's policy first. *)
Definition compare_with (op : forall s : scalar, carrier s -> carrier s -> bool)
    {Other : P} (a : angle Turn) (other : angle Other) : option bool :=
  n <- as_ Turn other ;;
  Some (compare_numbers op (number_of (type Turn) (v_ a)) n).

Definition eq {Other : P} (a : angle Turn) (other : angle Other) : option bool :=
  compare_with (fun s x y => x == y) a other.

Definition ne {Other : P} (a : angle Turn) (other : angle Other) : option bool :=
  compare_with (fun s x y => negb (x == y)) a other.

Definition lt {Other : P} (a : angle Turn) (other : angle Other) : option bool :=
  compare_with (fun s x y => x < y) a other.

Definition gt {Other : P} (a : angle Turn) (other : angle Other) : option bool :=
  compare_with (fun s x y => x > y) a other.

Definition le {Other : P} (a : angle Turn) (other : angle Other) : option bool :=
  compare_with (fun s x y => x <= y) a other.

Definition ge {Other : P} (a : angle Turn) (other : angle Other) : option bool :=
  compare_with (fun s x y => x >= y) a other.

(** [fmod] and [remainder] of two angles *)
Definition fmod_angle (numer denom : angle Turn) : option (angle Turn) :=
  r <- fmod (v_ numer) (v_ denom) ;;
  Some (mk_angle r).


(** [mod_turn(a)]: the argument is a copy, which is normalized. *)
Definition mod_turn (a : angle Turn) : option (angle Turn) :=
  a' <- normalize a ;;
  Some a'.

(** [turn_remainder(a)] *)
Definition turn_remainder (a : angle Turn) : option (angle Turn) :=
  n <- angle_cast Turn a ;;
  let r := mk_angle (turn Turn - convert (projT1 n) (type Turn) (projT2 n)) in
  normalize r.

(** [turn_multiple(a)] *)
Definition turn_multiple (a : angle Turn) : option (carrier (type Turn)) :=
  n <- angle_cast Turn a ;;
  div (convert (projT1 n) (type Turn) (projT2 n)) (turn Turn).


Definition turn_interval_max : angle Turn := mk_angle (turn Turn).

Definition half_turn_interval_min : angle Turn := mk_angle (of_int 0).








End Members.

End AngleOps.

(** ** Casts and the quotient of two angles, for the policies of the header *)

(** [radians_cast<T>(a)], [degrees_cast<T>(a)], [gons_cast<T>(a)]: the
    result of [as] is returned as a [T]. *)
Definition cast_to (unit : unit_name) (T : scalar) {U : std_turn} (a : angle U) :
    option (carrier T) :=
  n <- as_ (mk_turn unit T) a ;;
  Some (convert (projT1 n) T (projT2 n)).

Definition radians_cast (T : scalar) {U : std_turn} (a : angle U) : option (carrier T) :=
  cast_to radians T a.

Definition degrees_cast (T : scalar) {U : std_turn} (a : angle U) : option (carrier T) :=
  cast_to degrees T a.

Definition arcmins_cast (T : scalar) {U : std_turn} (a : angle U) : option (carrier T) :=
  cast_to arcmins T a.

Definition arcsecs_cast (T : scalar) {U : std_turn} (a : angle U) : option (carrier T) :=
  cast_to arcsecs T a.

Definition gons_cast (T : scalar) {U : std_turn} (a : angle U) : option (carrier T) :=
  cast_to gons T a.

Definition gon_cs_cast (T : scalar) {U : std_turn} (a : angle U) : option (carrier T) :=
  cast_to gon_cs T a.

Definition gon_ccs_cast (T : scalar) {U : std_turn} (a : angle U) : option (carrier T) :=
  cast_to gon_ccs T a.

(** [operator / (const angle<U1>&, const angle<U2>&)] *)
Definition quotient {U1 U2 : std_turn} (a : angle U1) (b : angle U2) :
    option (carrier (common_type (type_of U1) (type_of U2))) :=
  let T := common_type (type_of U1) (type_of U2) in
  x <- radians_cast T a ;;
  y <- radians_cast T b ;;
  div x y.

(** [operator / (const angle<U>&, const angle<U>&)] *)
Definition quotient_same {U : std_turn} (a b : angle U) : option (carrier (type_of U)) :=
  let T := type_of U in
  x <- radians_cast T a ;;
  y <- radians_cast T b ;;
  div x y.

End AngleOps.

(** * Facts about the other operations of angle.h *)

Section AngleOpsFacts.

Import Angle.
Local Open Scope num_scope.

Lemma ltb_negb_leb (s : scalar) (x y : carrier s) : (x < y) = negb (y <= x).
Proof.
  destruct s; simpl.
  - apply Z.ltb_antisym.
  - reflexivity.
Qed.

Lemma convert_same (s : scalar) (x : carrier s) : convert s s x = x.
Proof. destruct s; reflexivity. Qed.

Lemma compare_numbers_same (op : forall s : scalar, carrier s -> carrier s -> bool)
    (s : scalar) (x y : carrier s) :
  AngleOps.compare_numbers op (number_of s x) (number_of s y) = op s x y.
Proof. destruct s; reflexivity. Qed.

Lemma num_eqb_refl (s : scalar) (x : carrier s) : (x == x) = true.
Proof.
  destruct s; simpl.
  - apply Z.eqb_refl.
  - apply Qeq_bool_refl.
Qed.

Context {P : Type} `{TurnPolicy P}.

Lemma as_own_turn (Turn : P) (a : angle Turn) :
  as_ Turn a = Some (number_of (type Turn) (v_ a)).
Proof.
  unfold as_. destruct (turn_eq_dec Turn Turn) as [_ | Hne].
  - reflexivity.
  - contradiction Hne. reflexivity.
Qed.

(** A value in the closed range is what [normalize] stores for itself. *)
Lemma normalize_value_fixed (s : scalar) (t v : carrier s) :
  (of_int 0 <= v) = true -> (v <= t) = true -> normalize_value s t v = Some v.
Proof.
  intros H0 Ht. unfold normalize_value.
  rewrite !ltb_negb_leb, H0, Ht. reflexivity.
Qed.

(** X1: [normalize] leaves an angle in the closed range from zero to the
    full turn as it is; and for a positive full turn what [normalize]
    returns is such an angle: normalizing twice is normalizing once, and so
    for [mod_turn]. *)
Theorem normalize_idempotent (Turn : P) (a a' : angle Turn) :
  (in_closed_turn a = true -> normalize a = Some a)
  /\ ((of_int 0 < turn Turn) = true ->
      normalize a = Some a' ->
      normalize a' = Some a'
      /\ AngleOps.mod_turn a = Some a'
      /\ AngleOps.mod_turn a' = Some a').
Proof.
  split.
  { intros Hin. unfold in_closed_turn in Hin. apply andb_true_iff in Hin.
    destruct Hin as [H0 Hle]. rewrite normalize_as_value.
    rewrite (normalize_value_fixed _ _ _ H0 Hle). destruct a. reflexivity. }
  intros Ht Ha.
  assert (Hfix : normalize a' = Some a').
  { rewrite normalize_as_value in Ha.
    destruct (normalize_value_range (type Turn) (turn Turn) (v_ a) Ht)
      as [v' [Hv' [H0 [Hle _]]]].
    rewrite Hv' in Ha. simpl in Ha. injection Ha as <-.
    rewrite normalize_as_value. simpl.
    rewrite (normalize_value_fixed _ _ _ H0 Hle). reflexivity. }
  unfold AngleOps.mod_turn. rewrite Ha, Hfix. repeat split.
Qed.

End AngleOpsFacts.

Lemma normalize_idempotent_witness :
  Angle.normalize (Angle.deg_i 10) = Some (Angle.deg_i 10).
Proof.
  apply (proj2 (normalize_idempotent (Angle.degrees_turn int_t) (Angle.deg_i 370)
                  (Angle.deg_i 10)));
    reflexivity.
Defined.
Section NormalizeTurns.

Import Angle.
Local Open Scope num_scope.

(** [normalize] changes the stored value by a whole number of turns. *)
Lemma normalize_value_turns (s : scalar) (t v v' : carrier s) :
  normalize_value s t v = Some v' ->
  exists k : Z, (v' == v + of_int k * t) = true.
Proof.
  unfold normalize_value.
  destruct ((v < of_int 0) || (v > t)).
  - destruct s; cbn [carrier carrier_Number Z_Number Q_Number fmod add mul eqb ltb of_int] in *.
    + unfold Zfmod. destruct (Z.eqb_spec t 0) as [?|Hnz]; [discriminate|].
      cbn [bind]. pose proof (Z.quot_rem' v t) as Hqr.
      destruct (Z.rem v t <? 0)%Z; intros Hv'; injection Hv' as <-.
      * exists (1 - Z.quot v t)%Z. apply Z.eqb_eq. lia.
      * exists (- Z.quot v t)%Z. apply Z.eqb_eq. lia.
    + unfold Qfmod. destruct (Qeq_bool t 0); [discriminate|]. cbn [bind].
      destruct (Qltb _ _); intros Hv'; injection Hv' as <-.
      * exists (1 - Qtrunc (v / t))%Z. apply Qeq_eq_bool.
        unfold Z.sub. rewrite inject_Z_plus, inject_Z_opp.
        change (inject_Z 1) with 1%Q. ring.
      * exists (- Qtrunc (v / t))%Z. apply Qeq_eq_bool.
        rewrite inject_Z_opp. ring.
  - intros Hv'. injection Hv' as <-. exists 0%Z.
    destruct s; cbn [carrier carrier_Number Z_Number Q_Number add mul eqb of_int] in *.
    + apply Z.eqb_eq. lia.
    + apply Qeq_eq_bool. change (inject_Z 0) with 0%Q. ring.
Qed.

(** The normalized value of [v] and that of [t - v] add up to one turn
    [t], unless both are zero. *)
Lemma normalize_value_complement (s : scalar) (t v m r : carrier s) :
  (of_int 0 < t) = true ->
  normalize_value s t v = Some m ->
  normalize_value s t (t - v) = Some r ->
  (m + r == t) = true \/ ((m == of_int 0) = true /\ (r == of_int 0) = true).
Proof.
  intros Ht Hm Hr.
  destruct (normalize_value_turns s t v m Hm) as [k1 Hk1].
  destruct (normalize_value_turns s t (t - v) r Hr) as [k2 Hk2].
  destruct (normalize_value_range s t v Ht) as [m' [Hm' [Hm0 [Hmt [Hmlt _]]]]].
  rewrite Hm in Hm'. injection Hm' as <-.
  destruct (normalize_value_range s t (t - v) Ht) as [r' [Hr' [Hr0 [Hrt [Hrlt _]]]]].
  rewrite Hr in Hr'. injection Hr' as <-.
  destruct s; cbn [carrier carrier_Number Z_Number Q_Number add sub mul eqb ltb leb of_int] in *.
  - apply Z.ltb_lt in Ht. apply Z.eqb_eq in Hk1, Hk2.
    apply Z.leb_le in Hm0, Hmt, Hr0, Hrt.
    assert (Hsum : (m + r = (1 + k1 + k2) * t)%Z) by lia.
    assert (HK : (1 + k1 + k2 = 0 \/ 1 + k1 + k2 = 1 \/ 1 + k1 + k2 = 2)%Z) by nia.
    destruct HK as [HK | [HK | HK]]; rewrite HK in Hsum.
    + right. split; apply Z.eqb_eq; lia.
    + left. apply Z.eqb_eq. lia.
    + exfalso.
      assert (m = t) by lia. assert (r = t) by lia.
      destruct (Z.eqb_spec v t) as [Hv|Hv].
      * destruct (Z.eqb_spec (t - v) t) as [Hw|Hw]; [lia|].
        specialize (Hrlt eq_refl). apply Z.ltb_lt in Hrlt. lia.
      * specialize (Hmlt eq_refl). apply Z.ltb_lt in Hmlt. lia.
  - change (inject_Z 0) with 0%Q in *.
    apply Qltb_lt in Ht. apply Qeq_bool_eq in Hk1, Hk2.
    apply Qle_bool_iff in Hm0, Hmt, Hr0, Hrt.
    assert (Hsum : (m + r == inject_Z (1 + k1 + k2) * t)%Q).
    { rewrite Hk1, Hk2, !inject_Z_plus. change (inject_Z 1) with 1%Q. ring. }
    set (K := (1 + k1 + k2)%Z) in *.
    assert (HK0 : (0 <= inject_Z K)%Q) by nra.
    assert (HK2 : (inject_Z K <= 2)%Q) by nra.
    change 0%Q with (inject_Z 0) in HK0. change 2%Q with (inject_Z 2) in HK2.
    rewrite <- Zle_Qle in HK0, HK2.
    assert (HK : (K = 0 \/ K = 1 \/ K = 2)%Z) by lia.
    destruct HK as [HK | [HK | HK]]; rewrite HK in Hsum.
    + right. change (inject_Z 0) with 0%Q in Hsum.
      split; apply Qeq_eq_bool; lra.
    + left. change (inject_Z 1) with 1%Q in Hsum. apply Qeq_eq_bool. lra.
    + exfalso. change (inject_Z 2) with 2%Q in Hsum.
      assert (Hmt' : (m == t)%Q) by lra. assert (Hrt' : (r == t)%Q) by lra.
      destruct (Qeq_bool v t) eqn:Hv.
      * apply Qeq_bool_eq in Hv.
        destruct (Qeq_bool (t - v) t) eqn:Hw.
        -- apply Qeq_bool_eq in Hw. lra.
        -- specialize (Hrlt eq_refl). apply Qltb_lt in Hrlt. lra.
      * specialize (Hmlt eq_refl). apply Qltb_lt in Hmlt. lra.
Qed.

(** On [long long], [normalize] is the function on [Z] as long as the
    value and the full turn are [double] values. *)
Lemma long_long_normalize_exact (t v : Z) :
  (Z.abs v <= 2 ^ 53)%Z -> (Z.abs t <= 2 ^ 53)%Z ->
  normalize_number (LL t) (LL v) = option_map LL (normalize_value int_t t v).
Proof.
  intros Hv Ht. unfold normalize_number, normalize_value.
  cbn [long_long_Number carrier_Number Z_Number ltb of_int fmod add ll].
  rewrite !round_to_double_exact by assumption.
  destruct ((v <? 0)%Z || (t <? v)%Z); [|reflexivity].
  destruct (Zfmod v t) as [f|]; [|reflexivity].
  cbn [option_map bind ll]. destruct (f <? 0)%Z; reflexivity.
Qed.

(** X2: where [fmod] is exact, the value that [normalize] stores differs
    from the value before by a whole number of full turns: on the exact
    types, and on [long long] for a value and a full turn up to [2 ^ 53].
    Not so beyond: [2 ^ 53 + 1] degrees as a [long long] become 32, and a
    tiny negative [double] becomes the full turn. *)
Theorem normalize_whole_turns :
  (forall (P : Type) (TP : TurnPolicy P) (Turn : P) (a a' : angle Turn),
      normalize a = Some a' ->
      exists k : Z, (v_ a' == v_ a + of_int k * turn Turn) = true)
  /\ (forall (P : Type) (TP : TurnPolicy P) (Turn : P) (a : angle Turn),
        normalize a = option_map mk_angle (normalize_number (turn Turn) (v_ a)))
  /\ (forall t v v' : Z,
        (Z.abs v <= 2 ^ 53)%Z -> (Z.abs t <= 2 ^ 53)%Z ->
        normalize_number (LL t) (LL v) = Some (LL v') ->
        exists k : Z, v' = (v + k * t)%Z)
  /\ normalize_number (LL 360) (LL (2 ^ 53 + 1)) = Some (LL 32)
  /\ Z.rem (2 ^ 53 + 1 - 32) 360 = 1%Z
  /\ normalize_number 360%float (-0x1p-70)%float = Some 360%float.
Proof.
  split; [|split; [|split; [|repeat split; vm_compute; reflexivity]]].
  - intros P TP Turn a a' Ha. rewrite normalize_as_value in Ha.
    destruct (normalize_value (type Turn) (turn Turn) (v_ a)) as [v'|] eqn:Hv';
      [|discriminate].
    simpl in Ha. injection Ha as <-. simpl.
    apply (normalize_value_turns _ _ _ _ Hv').
  - intros P TP Turn a. apply normalize_as_value.
  - intros t v v' Hv Ht Hn. rewrite long_long_normalize_exact in Hn by assumption.
    destruct (normalize_value int_t t v) as [w|] eqn:Hw; [|discriminate].
    injection Hn as <-.
    destruct (normalize_value_turns int_t t v w Hw) as [k Hk].
    exists k. apply Z.eqb_eq in Hk. exact Hk.
Qed.

(** X3: for a positive full turn, [turn_remainder a] lies in the closed
    range from zero to the turn, and together with [mod_turn a] it makes one
    full turn, unless both are zero (as they are for two full turns): on
    the exact types, and on [long long] when the value, the full turn and
    their difference are within [2 ^ 53].  Beyond that the two need not
    add up: for [2 ^ 53 + 1] degrees they are 32 and 327. *)
Theorem turn_remainder_complement :
  (forall (P : Type) (TP : TurnPolicy P) (Turn : P) (a : angle Turn),
      (of_int 0 < turn Turn) = true ->
      exists m r,
        AngleOps.mod_turn a = Some m
        /\ AngleOps.turn_remainder a = Some r
        /\ in_closed_turn r = true
        /\ ((v_ m + v_ r == turn Turn) = true
            \/ ((v_ m == of_int 0) = true /\ (v_ r == of_int 0) = true)))
  /\ (forall (P : Type) (TP : TurnPolicy P) (Turn : P) (a : angle Turn),
        AngleOps.mod_turn a = option_map mk_angle (normalize_number (turn Turn) (v_ a))
        /\ AngleOps.turn_remainder a
           = option_map mk_angle (normalize_number (turn Turn) (turn Turn - v_ a)))
  /\ (forall t v : Z,
        (0 < t)%Z -> (t <= 2 ^ 53)%Z -> (Z.abs v <= 2 ^ 53)%Z -> (Z.abs (t - v) <= 2 ^ 53)%Z ->
        exists m r : Z,
          normalize_number (LL t) (LL v) = Some (LL m)
          /\ normalize_number (LL t) (LL t - LL v) = Some (LL r)
          /\ (m + r = t \/ (m = 0 /\ r = 0))%Z)
  /\ normalize_number (LL 360) (LL (2 ^ 53 + 1)) = Some (LL 32)
  /\ normalize_number (LL 360) (LL 360 - LL (2 ^ 53 + 1)) = Some (LL 327).
Proof.
  split; [|split; [|split; [|split; vm_compute; reflexivity]]].
  - intros P TP Turn a Ht.
    destruct (normalize_value_range (type Turn) (turn Turn) (v_ a) Ht)
      as [m [Hm _]].
    destruct (normalize_value_range (type Turn) (turn Turn) (turn Turn - v_ a) Ht)
      as [r [Hr [Hr0 [Hrt _]]]].
    exists (mk_angle m), (mk_angle r).
    unfold AngleOps.mod_turn, AngleOps.turn_remainder, AngleOps.angle_cast.
    rewrite as_own_turn. cbn [bind number_of projT1 projT2].
    rewrite convert_same, !normalize_as_value. cbn [v_]. rewrite Hm, Hr.
    repeat split.
    + unfold in_closed_turn. cbn [v_]. rewrite Hr0, Hrt. reflexivity.
    + cbn [v_]. apply (normalize_value_complement _ _ _ _ _ Ht Hm Hr).
  - intros P TP Turn a.
    unfold AngleOps.mod_turn, AngleOps.turn_remainder, AngleOps.angle_cast.
    rewrite as_own_turn. cbn [bind number_of projT1 projT2].
    rewrite convert_same, !normalize_as_value. cbn [v_].
    split; [|reflexivity].
    change (normalize_number (turn Turn) (v_ a))
      with (normalize_value (type Turn) (turn Turn) (v_ a)).
    destruct (normalize_value (type Turn) (turn Turn) (v_ a)); reflexivity.
  - intros t v Ht Ht' Hv Hd.
    assert (Hpos : ltb (of_int (T := carrier int_t) 0) t = true) by (apply Z.ltb_lt; exact Ht).
    destruct (normalize_value_range int_t t v Hpos) as [m [Hm _]].
    destruct (normalize_value_range int_t t (t - v)%Z Hpos) as [r [Hr _]].
    exists m, r.
    change (LL t - LL v) with (LL (t - v)).
    rewrite !long_long_normalize_exact by lia. rewrite Hm, Hr.
    split; [reflexivity|]. split; [reflexivity|].
    destruct (normalize_value_complement int_t t v m r Hpos Hm Hr) as [Hs | [H1 H2]].
    + left. apply Z.eqb_eq in Hs. exact Hs.
    + right. apply Z.eqb_eq in H1, H2. split; assumption.
Qed.

End NormalizeTurns.

Lemma normalize_whole_turns_witness :
  exists k : Z, (10 =? 730 + k * 360)%Z = true.
Proof.
  apply (proj1 normalize_whole_turns _ _ (Angle.degrees_turn int_t)
           (Angle.deg_i 730) (Angle.deg_i 10)).
  reflexivity.
Defined.

Lemma turn_remainder_complement_witness :
  exists m r,
    AngleOps.mod_turn (Angle.deg_i 370) = Some m
    /\ AngleOps.turn_remainder (Angle.deg_i 370) = Some r
    /\ in_closed_turn r = true
    /\ ((Angle.v_ m + Angle.v_ r =? 360)%Z = true
        \/ ((Angle.v_ m =? 0)%Z = true /\ (Angle.v_ r =? 0)%Z = true)).
Proof.
  apply (proj1 turn_remainder_complement _ _ (Angle.degrees_turn int_t) (Angle.deg_i 370)).
  reflexivity.
Defined.

Example turn_remainder_two_turns :
  AngleOps.mod_turn (Angle.deg_i 720) = Some (Angle.deg_i 0)
  /\ AngleOps.turn_remainder (Angle.deg_i 720) = Some (Angle.deg_i 0).
Proof. split; reflexivity. Qed.
Section ConversionFacts.

Import Angle.
Local Open Scope num_scope.

Lemma as_other_turn {P : Type} `{TurnPolicy P} (Turn OutTurn : P) (a : angle Turn) :
  OutTurn <> Turn ->
  as_ OutTurn a =
    (let T := common_type (type OutTurn) (type Turn) in
     q <- div (convert _ T (value OutTurn)) (convert _ T (value Turn)) ;;
     Some (number_of T (q * convert _ T (v_ a)))).
Proof.
  intros Hne. unfold as_. destruct (turn_eq_dec Turn OutTurn) as [Heq | _].
  - contradiction Hne. symmetry. exact Heq.
  - reflexivity.
Qed.

Lemma mk_turn_neq (u1 u2 : unit_name) (s : scalar) :
  u2 <> u1 -> mk_turn u2 s <> mk_turn u1 s.
Proof. intros Hne Heq. injection Heq as Hu. contradiction. Qed.

(** X4: between two different policies of the header on an integral type,
    [as] multiplies by the truncated quotient of the two full turns; so a
    conversion to a unit with a smaller full turn (arc minutes to degrees,
    degrees to radians) gives zero for every angle. *)
Theorem as_integral_quotient (u1 u2 : unit_name) (v : Z) :
  u2 <> u1 ->
  let a : angle (mk_turn u1 int_t) := mk_angle (Turn := mk_turn u1 int_t) v in
  let t1 : Z := std_value (mk_turn u1 int_t) in
  let t2 : Z := std_value (mk_turn u2 int_t) in
  as_ (mk_turn u2 int_t) a = Some (number_of int_t (Z.quot t2 t1 * v)%Z)
  /\ ((t2 < t1)%Z -> as_ (mk_turn u2 int_t) a = Some (number_of int_t 0%Z)).
Proof.
  intros Hne a t1 t2.
  assert (Has : as_ (mk_turn u2 int_t) a = Some (number_of int_t (Z.quot t2 t1 * v)%Z)).
  { rewrite (as_other_turn _ _ a (mk_turn_neq _ _ int_t Hne)).
    destruct u1, u2; reflexivity. }
  split; [exact Has|].
  intros Hlt. rewrite Has.
  assert (Hq : Z.quot t2 t1 = 0%Z).
  { apply Z.quot_small. split; [|exact Hlt]. destruct u2; vm_compute; discriminate. }
  rewrite Hq. reflexivity.
Qed.

Lemma std_value_real_positive (u : unit_name) :
  (0 < (std_value (mk_turn u real_t) : Q))%Q.
Proof. destruct u; reflexivity. Qed.

Lemma as_real (u1 u2 : unit_name) (a : angle (mk_turn u1 real_t)) :
  exists q : Q,
    as_ (mk_turn u2 real_t) a = Some (number_of real_t q)
    /\ (q == (std_value (mk_turn u2 real_t) : Q) / (std_value (mk_turn u1 real_t) : Q)
             * (v_ a : Q))%Q.
Proof.
  pose proof (std_value_real_positive u1) as H1.
  unfold as_. destruct (turn_eq_dec (mk_turn u1 real_t) (mk_turn u2 real_t)) as [Heq | Hne].
  - injection Heq as <-. exists (v_ a : Q). split; [reflexivity|].
    destruct a as [va]. cbn [v_ type std_TurnPolicy type_of carrier] in *.
    field. lra.
  - cbn [conversion_t type std_TurnPolicy type_of common_type convert div
         carrier_Number Q_Number value turn].
    unfold Qdiv_opt.
    assert (Hnz : Qeq_bool (std_value (mk_turn u1 real_t)) 0 = false)
      by (apply Qeq_bool_false; lra).
    rewrite Hnz. cbn [bind]. eexists. split; reflexivity.
Qed.

(** X5: on a real-valued type, converting an angle to any other policy of
    the header and back gives the value it had. *)
Theorem angle_from_round_trip_real (u1 u2 : unit_name) (a : angle (mk_turn u1 real_t)) :
  exists (b : angle (mk_turn u2 real_t)) (a' : angle (mk_turn u1 real_t)),
    AngleOps.angle_from (mk_turn u2 real_t) a = Some b
    /\ AngleOps.angle_from (mk_turn u1 real_t) b = Some a'
    /\ (v_ a' == v_ a) = true.
Proof.
  pose proof (std_value_real_positive u1) as H1.
  pose proof (std_value_real_positive u2) as H2.
  destruct (as_real u1 u2 a) as [q [Hq Hqv]].
  destruct (as_real u2 u1 (@mk_angle _ std_TurnPolicy (mk_turn u2 real_t) q))
    as [q' [Hq' Hqv']].
  exists (@mk_angle _ std_TurnPolicy (mk_turn u2 real_t) q),
         (@mk_angle _ std_TurnPolicy (mk_turn u1 real_t) q').
  unfold AngleOps.angle_from. rewrite Hq. cbn [bind number_of projT1 projT2 convert].
  split; [reflexivity|]. rewrite Hq'. cbn [bind number_of projT1 projT2 convert].
  split; [reflexivity|].
  cbn [v_ eqb carrier_Number Q_Number type std_TurnPolicy type_of].
  apply Qeq_eq_bool. cbn [v_] in Hqv'. rewrite Hqv', Hqv. field. lra.
Qed.

(** On an integral type the round trip loses the angle: two degrees are
    120 arc minutes, which are zero degrees. *)
Example angle_from_round_trip_int :
  (b <- AngleOps.angle_from (arcmins_turn int_t) (deg_i 2) ;;
   a' <- AngleOps.angle_from (degrees_turn int_t) b ;;
   Some (v_ b, v_ a')) = Some (120, 0)%Z.
Proof. reflexivity. Qed.

Lemma Qeq_bool_iff_eq (x y x' y' : Q) :
  ((x == y)%Q <-> (x' == y')%Q) -> Qeq_bool x y = Qeq_bool x' y'.
Proof.
  intros Hiff.
  destruct (Qeq_bool x y) eqn:H1; destruct (Qeq_bool x' y') eqn:H2; try reflexivity.
  - apply Qeq_bool_eq in H1. apply Qeq_bool_false in H2. tauto.
  - apply Qeq_bool_eq in H2. apply Qeq_bool_false in H1. tauto.
Qed.

Lemma Qle_bool_iff_eq (x y x' y' : Q) :
  ((x <= y)%Q <-> (x' <= y')%Q) -> Qle_bool x y = Qle_bool x' y'.
Proof.
  intros Hiff.
  destruct (Qle_bool x y) eqn:H1; destruct (Qle_bool x' y') eqn:H2; try reflexivity.
  - apply Qle_bool_iff in H1. apply Qle_bool_gt in H2. apply Hiff in H1. lra.
  - apply Qle_bool_iff in H2. apply Qle_bool_gt in H1. apply Hiff in H2. lra.
Qed.

(** X6: on a real-valued type the comparison of two angles of any two
    policies of the header does not depend on the side that is converted:
    [a == b] is [b == a], [a < b] is [b > a], [a <= b] is [b >= a]. *)
Theorem compare_real_symmetric (u1 u2 : unit_name)
    (a : angle (mk_turn u1 real_t)) (b : angle (mk_turn u2 real_t)) :
  AngleOps.eq a b = AngleOps.eq b a
  /\ AngleOps.ne a b = AngleOps.ne b a
  /\ AngleOps.lt a b = AngleOps.gt b a
  /\ AngleOps.gt a b = AngleOps.lt b a
  /\ AngleOps.le a b = AngleOps.ge b a
  /\ AngleOps.ge a b = AngleOps.le b a.
Proof.
  pose proof (std_value_real_positive u1) as H1.
  pose proof (std_value_real_positive u2) as H2.
  destruct (as_real u2 u1 b) as [qb [Hb Hqb]].
  destruct (as_real u1 u2 a) as [qa [Ha Hqa]].
  unfold AngleOps.eq, AngleOps.ne, AngleOps.lt, AngleOps.gt, AngleOps.le, AngleOps.ge,
    AngleOps.compare_with.
  rewrite Ha, Hb. cbn [bind].
  rewrite !compare_numbers_same.
  cbn [eqb ltb leb carrier_Number Q_Number type std_TurnPolicy type_of].
  destruct a as [va]. destruct b as [vb]. cbn [v_] in *.
  cbn [type std_TurnPolicy type_of carrier] in *.
  set (A := (std_value (mk_turn u1 real_t) : Q)) in *.
  set (B := (std_value (mk_turn u2 real_t) : Q)) in *.
  assert (HAB : (0 < A / B)%Q) by (apply Qlt_shift_div_l; lra).
  assert (Hva : (va == A / B * (B / A * va))%Q) by (field; lra).
  assert (Heq : Qeq_bool va qb = Qeq_bool vb qa).
  { apply Qeq_bool_iff_eq. rewrite Hqa, Hqb. split; intros E.
    - rewrite E. field. lra.
    - rewrite E. field. lra. }
  assert (Hle1 : Qle_bool va qb = Qle_bool qa vb).
  { apply Qle_bool_iff_eq. rewrite Hqa, Hqb. rewrite Hva at 1. split; intros E; nra. }
  assert (Hle2 : Qle_bool qb va = Qle_bool vb qa).
  { apply Qle_bool_iff_eq. rewrite Hqa, Hqb. rewrite Hva at 1. split; intros E; nra. }
  unfold Qltb. rewrite Heq, Hle1, Hle2. repeat split.
Qed.

(** On an integral type the side matters: 90 gons equal 90 degrees, but 90
    degrees do not equal 90 gons. *)
Example compare_int_asymmetric :
  AngleOps.eq (mk_angle (Turn := gons_turn int_t) 90%Z) (deg_i 90) = Some true
  /\ AngleOps.eq (deg_i 90) (mk_angle (Turn := gons_turn int_t) 90%Z) = Some false.
Proof. split; reflexivity. Qed.

End ConversionFacts.

Lemma as_integral_quotient_witness :
  Angle.as_ (Angle.degrees_turn int_t)
    (Angle.mk_angle (Turn := Angle.arcmins_turn int_t) 600%Z)
  = Some (number_of int_t 0%Z).
Proof.
  apply (as_integral_quotient Angle.arcmins Angle.degrees 600%Z).
  - discriminate.
  - reflexivity.
Defined.
Section ArithmeticFacts.

Import Angle.
Local Open Scope num_scope.



Context {P : Type} `{TurnPolicy P}.






End ArithmeticFacts.



Section QuotientFacts.

Import Angle.
Local Open Scope num_scope.

(** X9: on a real-valued type the quotient of two angles of one policy of
    the header is the quotient of their stored values, whatever the unit,
    provided the divisor is not zero. *)
Theorem quotient_real_unit_free (u : unit_name) (a b : angle (mk_turn u real_t)) :
  (v_ b == of_int 0) = false ->
  exists q : Q,
    AngleOps.quotient_same a b = Some q
    /\ (q == (v_ a : Q) / (v_ b : Q))%Q.
Proof.
  intros Hb.
  pose proof (std_value_real_positive u) as Hu.
  pose proof (std_value_real_positive radians) as Hr.
  destruct (as_real u radians a) as [x [Hx Hxv]].
  destruct (as_real u radians b) as [y [Hy Hyv]].
  destruct a as [va]. destruct b as [vb].
  cbn [v_ type std_TurnPolicy type_of carrier eqb carrier_Number Q_Number of_int] in *.
  change (inject_Z 0) with 0%Q in Hb. apply Qeq_bool_false in Hb.
  set (R := (std_value (mk_turn radians real_t) : Q)) in *.
  set (U := (std_value (mk_turn u real_t) : Q)) in *.
  assert (Hy0 : ~ (y == 0)%Q).
  { rewrite Hyv. intros E.
    assert (E' : (vb == R / U * vb * (U / R))%Q) by (field; lra).
    rewrite E in E'. apply Hb. rewrite E'. ring. }
  unfold AngleOps.quotient_same, AngleOps.radians_cast, AngleOps.cast_to.
  cbn [type_of]. unfold radians_turn in *.
  rewrite Hx, Hy. cbn [bind number_of projT1 projT2 convert div carrier_Number Q_Number].
  unfold Qdiv_opt.
  assert (Hnz : Qeq_bool y 0 = false) by (apply Qeq_bool_false; exact Hy0).
  rewrite Hnz. eexists. split; [reflexivity|].
  rewrite Hxv, Hyv. field. repeat split; lra.
Qed.

(** X10: on an integral type the quotient of two angles has no result for
    any policy of the header but radians: both angles are zero radians,
    for the full turn in radians is the smaller one. *)
Theorem quotient_int_undefined (u : unit_name) (a b : angle (mk_turn u int_t)) :
  u <> radians ->
  AngleOps.radians_cast int_t a = Some 0%Z
  /\ AngleOps.quotient_same a b = None.
Proof.
  intros Hu. destruct a as [va]. destruct b as [vb].
  destruct u; try contradiction; split; reflexivity.
Qed.

End QuotientFacts.

Lemma quotient_real_unit_free_witness :
  exists q : Q,
    AngleOps.quotient_same (Angle.deg 90) (Angle.deg 45) = Some q /\ (q == 2)%Q.
Proof.
  destruct (quotient_real_unit_free Angle.degrees (Angle.deg 90) (Angle.deg 45) eq_refl)
    as [q [Hq Hv]].
  exists q. split; [exact Hq|]. rewrite Hv. reflexivity.
Defined.

Lemma quotient_int_undefined_witness :
  AngleOps.quotient_same (Angle.deg_i 90) (Angle.deg_i 45) = None.
Proof.
  apply (quotient_int_undefined Angle.degrees (Angle.deg_i 90) (Angle.deg_i 45)).
  discriminate.
Defined.
Section FmodFacts.

Import Angle.
Local Open Scope num_scope.


Context {P : Type} `{TurnPolicy P}.


End FmodFacts.


Section TurnMultipleFacts.

Import Angle.
Local Open Scope num_scope.

(** X25: for a policy of the header, [turn_multiple] has a result.  On an
    exact integral type it is the truncated quotient, which with the [fmod]
    by the full turn makes up the angle; on an exact real-valued type it is
    the exact number of turns.  On [long long] the quotient and the [fmod],
    which goes through [double], make up the value up to [2 ^ 53]; for
    [2 ^ 53 + 1] degrees they make up [2 ^ 53]. *)
Theorem turn_multiple_turns :
  (forall (u : unit_name) (a : angle (mk_turn u int_t)),
      exists (k : Z) (f : angle (mk_turn u int_t)),
        AngleOps.turn_multiple a = Some k
        /\ AngleOps.fmod_angle a AngleOps.turn_interval_max = Some f
        /\ (v_ a : Z) = (k * std_value (mk_turn u int_t) + v_ f)%Z)
  /\ (forall (u : unit_name) (a : angle (mk_turn u real_t)),
        exists k : Q,
          AngleOps.turn_multiple a = Some k
          /\ (k * std_value (mk_turn u real_t) == v_ a)%Q)
  /\ (forall t v : Z,
        t <> 0%Z -> (Z.abs v <= 2 ^ 53)%Z -> (Z.abs t <= 2 ^ 53)%Z ->
        exists k f : Z,
          div (LL v) (LL t) = Some (LL k)
          /\ fmod (LL v) (LL t) = Some (LL f)
          /\ v = (k * t + f)%Z)
  /\ (div (LL (2 ^ 53 + 1)) (LL 360) = Some (LL 25019997929836)
      /\ fmod (LL (2 ^ 53 + 1)) (LL 360) = Some (LL 32)
      /\ (25019997929836 * 360 + 32 = 2 ^ 53)%Z).
Proof.
  split; [|split; [|split; [|repeat split; vm_compute; reflexivity]]].
  - intros u [v]. unfold AngleOps.turn_multiple, AngleOps.angle_cast,
      AngleOps.fmod_angle, AngleOps.turn_interval_max.
    rewrite as_own_turn. cbn [bind number_of projT1 projT2 v_].
    rewrite convert_same.
    assert (Hpos : (0 < (std_value (mk_turn u int_t) : Z))%Z)
      by (destruct u; reflexivity).
    cbn [type std_TurnPolicy type_of carrier carrier_Number Z_Number div fmod turn value]
      in *.
    set (t := std_value (mk_turn u int_t)) in *.
    unfold Zdiv_opt, Zfmod. destruct (Z.eqb_spec t 0) as [?|_]; [lia|].
    cbn [bind]. do 2 eexists. repeat split. cbn [v_].
    pose proof (Z.quot_rem' v t). lia.
  - intros u [v]. unfold AngleOps.turn_multiple, AngleOps.angle_cast.
    rewrite as_own_turn. cbn [bind number_of projT1 projT2 v_].
    rewrite convert_same.
    pose proof (std_value_real_positive u) as Hpos.
    cbn [type std_TurnPolicy type_of carrier carrier_Number Q_Number div turn value] in *.
    set (t := std_value (mk_turn u real_t)) in *.
    unfold Qdiv_opt.
    assert (Hnz : Qeq_bool t 0 = false) by (apply Qeq_bool_false; lra).
    rewrite Hnz. eexists. split; [reflexivity|]. cbn [v_]. field. lra.
  - intros t v Ht Hv Ht'.
    cbn [long_long_Number div fmod ll].
    rewrite !round_to_double_exact by assumption.
    unfold Zdiv_opt, Zfmod. destruct (Z.eqb_spec t 0) as [?|_]; [contradiction|].
    cbn [option_map]. do 2 eexists. split; [reflexivity|]. split; [reflexivity|].
    pose proof (Z.quot_rem' v t). lia.
Qed.

End TurnMultipleFacts.

Lemma turn_multiple_turns_witness :
  exists k f : Z,
    div (LL 1000) (LL 360) = Some (LL k)
    /\ fmod (LL 1000) (LL 360) = Some (LL f)
    /\ 1000%Z = (k * 360 + f)%Z.
Proof.
  apply (proj1 (proj2 (proj2 turn_multiple_turns)) 360%Z 1000%Z); simpl; lia.
Defined.

(** * equality.h: the other functions *)

Module EqualityOps.

Import Equality.
Local Open Scope num_scope.

Section EqualityOps.

Context {T : Type} `{Number T}.

(** [approx_equal(a, b)]: [tolerance1] and [tolerance2] stand for the
    constants [tolerance<T1>] and [tolerance<T2>] of [limits.h], which is
    not among the sources. *)
Definition approx_equal_default (tolerance1 tolerance2 : T) (a b : T) : bool :=
  if tolerance1 < tolerance2
  then (a >= b - tolerance2) && (a <= b + tolerance2)
  else (b >= a - tolerance1) && (b <= a + tolerance1).

(** [std::complex<T>] *)
Record complex : Type := mk_complex { real : T; imag : T }.

Definition approx_equal_complex_default (tolerance1 tolerance2 : T) (a b : complex) : bool :=
  approx_equal_default tolerance1 tolerance2 (real a) (real b)
  && approx_equal_default tolerance1 tolerance2 (imag a) (imag b).

Definition approx_equal_complex (a b : complex) (tolerance : T) : bool :=
  approx_equal (real a) (real b) tolerance
  && approx_equal (imag a) (imag b) tolerance.

Definition abs_approx_equal_default (tolerance1 tolerance2 : T) (a b : T) : bool :=
  approx_equal_default tolerance1 tolerance2 (abs a) (abs b).

Definition abs_approx_equal (a b tolerance : T) : bool :=
  approx_equal (abs a) (abs b) tolerance.

Definition approx_0 (a tol : T) : bool :=
  (a >= of_int 0 - tol) && (a <= of_int 0 + tol).

Definition approx_0_complex (a : complex) (tol : T) : bool :=
  approx_0 (real a) tol && approx_0 (imag a) tol.

Definition approx_1 (a tol : T) : bool :=
  (a >= of_int 1 - tol) && (a <= of_int 1 + tol).

Definition approx_1_complex (a : complex) (tol : T) : bool :=
  approx_1 (real a) tol && approx_0 (imag a) tol.

(** What the loop of the range overload computes, on the elements of the
    first range and the elements that can be read from [begin2] on: the
    pairs are compared in order; the loop stops at the first pair that is
    too far apart, and it has no result when the second list ends first. *)
Fixpoint compare_elements (tolerance : T) (l1 l2 : list T) : option bool :=
  match l1 with
  | [] => Some true
  | x :: l1' =>
      match l2 with
      | [] => None
      | y :: l2' =>
          if abs (x - y) > tolerance then Some false
          else compare_elements tolerance l1' l2'
      end
  end.

End EqualityOps.

Arguments complex T : clear implicits.

End EqualityOps.

(** * Facts about the other functions of equality.h *)

Section EqualityOpsFacts.

Import Equality EqualityOps.
Local Open Scope num_scope.

Lemma bool_eq_iff (b1 b2 : bool) : (b1 = true <-> b2 = true) -> b1 = b2.
Proof. destruct b1, b2; intros [H1 H2]; try reflexivity; [symmetry|]; auto. Qed.

(** The check on the integers and on the rationals, by the distance. *)
Lemma approx_equal_abs (s : scalar) (a b tol : carrier s) :
  approx_equal a b tol = (abs (a - b) <= tol).
Proof.
  apply bool_eq_iff.
  destruct s; cbn [carrier carrier_Number Z_Number Q_Number abs sub leb] in *.
  - rewrite approx_equal_Z, Z.leb_le. lia.
  - rewrite approx_equal_Q, Qle_bool_iff.
    destruct (Qabs_cases (a - b)) as [[? E] | [? E]]; rewrite E;
      (split; [intros [? ?] | intros ?; split]; lra).
Qed.

Lemma approx_equal_sym (s : scalar) (a b tol : carrier s) :
  approx_equal a b tol = approx_equal b a tol.
Proof.
  apply bool_eq_iff.
  destruct s; cbn [carrier] in *.
  - rewrite !approx_equal_Z. lia.
  - rewrite !approx_equal_Q. split; intros; split; lra.
Qed.

(** X11: on a signed integer without overflow and in exact real
    arithmetic, [approx_equal(a, b, tol)] is symmetric in [a] and [b];
    [approx_equal(a, a, tol)] is [0 <= tol], and with a negative tolerance
    no two numbers are approximately equal.  On [unsigned int], where the
    lower bound wraps around, it is not symmetric, and a number may differ
    from itself. *)
Theorem approx_equal_symmetric :
  (forall (s : scalar) (a b tol : carrier s),
      approx_equal a b tol = approx_equal b a tol
      /\ approx_equal a a tol = (of_int 0 <= tol)
      /\ ((tol < of_int 0) = true -> approx_equal a b tol = false))
  /\ (forall a b tol : Z,
        approx_equal (LL a) (LL b) (LL tol) = approx_equal (LL b) (LL a) (LL tol)
        /\ approx_equal (LL a) (LL a) (LL tol) = (0 <=? tol)%Z)
  /\ (approx_equal (UI 0) (UI 1) (UI 1) = true
      /\ approx_equal (UI 1) (UI 0) (UI 1) = false)
  /\ approx_equal (UI 5) (UI 5) (UI 6) = false.
Proof.
  split; [|split; [|repeat split]].
  - intros s a b tol. split; [|split].
    + apply approx_equal_sym.
    + apply bool_eq_iff.
      destruct s; cbn [carrier carrier_Number Z_Number Q_Number leb of_int] in *.
      * rewrite approx_equal_Z, Z.leb_le. lia.
      * rewrite approx_equal_Q, Qle_bool_iff. change (inject_Z 0) with 0%Q.
        split; intros; try split; lra.
    + intros Hneg. apply not_true_is_false.
      destruct s; cbn [carrier carrier_Number Z_Number Q_Number ltb of_int] in *.
      * rewrite approx_equal_Z. apply Z.ltb_lt in Hneg. lia.
      * rewrite approx_equal_Q. apply Qltb_lt in Hneg.
        change (inject_Z 0) with 0%Q in Hneg. lra.
  - intros a b tol. split; apply bool_eq_iff.
    + rewrite !approx_equal_long_long. lia.
    + rewrite approx_equal_long_long, Z.leb_le. lia.
Qed.

(** X12: on a signed integer without overflow and in exact real
    arithmetic, a larger tolerance accepts whatever a smaller one accepts,
    and the tolerances add up along a chain: if [a] is within [t1] of [b]
    and [b] within [t2] of [c], then [a] is within [t1 + t2] of [c].  On
    [unsigned int] a larger tolerance may reject what a smaller one
    accepts. *)
Theorem approx_equal_tolerances :
  (forall (s : scalar) (a b c t1 t2 : carrier s),
      ((t1 <= t2) = true -> approx_equal a b t1 = true -> approx_equal a b t2 = true)
      /\ (approx_equal a b t1 = true -> approx_equal b c t2 = true ->
          approx_equal a c (t1 + t2) = true))
  /\ (forall a b c t1 t2 : Z,
        ((t1 <= t2)%Z -> approx_equal (LL a) (LL b) (LL t1) = true ->
         approx_equal (LL a) (LL b) (LL t2) = true)
        /\ (approx_equal (LL a) (LL b) (LL t1) = true ->
            approx_equal (LL b) (LL c) (LL t2) = true ->
            approx_equal (LL a) (LL c) (LL t1 + LL t2) = true))
  /\ (approx_equal (UI 5) (UI 5) (UI 5) = true
      /\ (UI 5 <= UI 6) = true
      /\ approx_equal (UI 5) (UI 5) (UI 6) = false).
Proof.
  split; [|split; [|repeat split]].
  - intros s a b c t1 t2.
    destruct s; cbn [carrier carrier_Number Z_Number Q_Number leb add] in *.
    + rewrite !approx_equal_Z, Z.leb_le. split; intros; lia.
    + rewrite !approx_equal_Q, Qle_bool_iff. split; intros; split; lra.
  - intros a b c t1 t2. change (LL t1 + LL t2) with (LL (t1 + t2)).
    rewrite !approx_equal_long_long. split; intros; lia.
Qed.

(** Approximate equality is not transitive. *)
Example approx_equal_not_transitive :
  approx_equal 0%Z 1%Z 1%Z = true
  /\ approx_equal 1%Z 2%Z 1%Z = true
  /\ approx_equal 0%Z 2%Z 1%Z = false.
Proof. repeat split. Qed.

(** X13: the overload without a tolerance is the overload with a tolerance,
    called with the larger of the tolerances of the two operand types; so
    it is symmetric in the operands together with their tolerances. *)
Theorem approx_equal_default_max (s : scalar) (tol1 tol2 a b : carrier s) :
  approx_equal_default tol1 tol2 a b
  = approx_equal a b (if tol1 < tol2 then tol2 else tol1)
  /\ approx_equal_default tol1 tol2 a b = approx_equal_default tol2 tol1 b a.
Proof.
  assert (Hmax : approx_equal_default tol1 tol2 a b
                 = approx_equal a b (if tol1 < tol2 then tol2 else tol1)).
  { unfold approx_equal_default. destruct (tol1 < tol2).
    - reflexivity.
    - rewrite (approx_equal_sym s a b tol1). reflexivity. }
  split; [exact Hmax|].
  rewrite Hmax. unfold approx_equal_default, approx_equal.
  apply bool_eq_iff.
  destruct s; cbn [carrier carrier_Number Z_Number Q_Number ltb leb add sub] in *.
  - destruct (Z.ltb_spec tol1 tol2); destruct (Z.ltb_spec tol2 tol1);
      rewrite !andb_true_iff, !Z.leb_le; lia.
  - destruct (Qltb tol1 tol2) eqn:H12; destruct (Qltb tol2 tol1) eqn:H21;
      [apply Qltb_lt in H12 | apply Qltb_lt in H12 | apply Qltb_ge in H12
       | apply Qltb_ge in H12];
      [apply Qltb_lt in H21 | apply Qltb_ge in H21 | apply Qltb_lt in H21
       | apply Qltb_ge in H21];
      rewrite !andb_true_iff, !Qle_bool_iff;
      (split; intros [? ?]; split; lra).
Qed.

(** X14: [approx_0] and [approx_1] are [approx_equal] with 0 and with 1.
    On a signed integer without overflow and in exact real arithmetic,
    [approx_0(a, tol)] holds exactly when the absolute value of [a] is at
    most [tol], and [abs_approx_equal] does not see the signs of its
    operands.  On [unsigned int] the lower bound [0 - tol] wraps around,
    and [approx_0(0u, 1u)] is false. *)
Theorem approx_0_1_abs :
  (forall (T : Type) (N : Number T) (a tol : T),
      approx_0 a tol = approx_equal a (of_int 0) tol
      /\ approx_1 a tol = approx_equal a (of_int 1) tol)
  /\ (forall (s : scalar) (a b tol : carrier s),
        approx_0 a tol = (abs a <= tol)
        /\ abs_approx_equal (- a) b tol = abs_approx_equal a b tol
        /\ abs_approx_equal a (- b) tol = abs_approx_equal a b tol)
  /\ (forall a tol : Z, approx_0 (LL a) (LL tol) = (Z.abs a <=? tol)%Z)
  /\ (approx_0 (UI 0) (UI 1) = false /\ (abs (UI 0) <= UI 1) = true).
Proof.
  split; [|split; [|split; [|split; reflexivity]]].
  - intros T N a tol. split; reflexivity.
  - intros s a b tol. split; [|split].
    + change (approx_0 a tol) with (approx_equal a (of_int 0) tol).
      rewrite approx_equal_abs. apply bool_eq_iff.
      destruct s; cbn [carrier carrier_Number Z_Number Q_Number abs sub leb of_int] in *.
      * rewrite Z.sub_0_r. reflexivity.
      * rewrite !Qle_bool_iff. change (inject_Z 0) with 0%Q.
        assert (E : (a - 0 == a)%Q) by ring. rewrite E. reflexivity.
    + unfold abs_approx_equal. apply bool_eq_iff.
      destruct s; cbn [carrier carrier_Number Z_Number Q_Number abs neg] in *.
      * rewrite Z.abs_opp. reflexivity.
      * rewrite !approx_equal_Q, Qabs_opp. reflexivity.
    + unfold abs_approx_equal. apply bool_eq_iff.
      destruct s; cbn [carrier carrier_Number Z_Number Q_Number abs neg] in *.
      * rewrite Z.abs_opp. reflexivity.
      * rewrite !approx_equal_Q, Qabs_opp. reflexivity.
  - intros a tol. change (approx_0 (LL a) (LL tol)) with (approx_equal (LL a) (LL 0) (LL tol)).
    apply bool_eq_iff. rewrite approx_equal_long_long, Z.leb_le. lia.
Qed.

End EqualityOpsFacts.

Lemma approx_equal_symmetric_witness :
  Equality.approx_equal 5%Z 5%Z (-1)%Z = false.
Proof.
  apply (proj1 approx_equal_symmetric int_t 5%Z 5%Z (-1)%Z). reflexivity.
Defined.

Lemma approx_equal_tolerances_witness :
  Equality.approx_equal 0%Z 2%Z (1 + 1)%Z = true.
Proof.
  apply (proj2 (proj1 approx_equal_tolerances int_t 0%Z 1%Z 2%Z 1%Z 1%Z)); reflexivity.
Defined.
Section RangeFacts.

Import Equality EqualityOps.
Local Open Scope num_scope.

Context {T : Type} `{Number T}.

Lemma approx_equal_loop_elements (n fuel : nat) (begin1 end1 begin2 : iter T)
    (tolerance : T) :
  pos end1 = (pos begin1 + n)%nat ->
  (pos begin1 + n <= length (seq begin1))%nat ->
  (n <= fuel)%nat ->
  approx_equal_loop fuel begin1 end1 begin2 tolerance
  = compare_elements tolerance (range_elements begin1 n)
      (skipn (pos begin2) (seq begin2)).
Proof.
  revert fuel begin1 begin2.
  induction n as [|n IH]; intros fuel begin1 begin2 Hend Hlen Hfuel.
  - assert (Hd : differ begin1 end1 = false).
    { unfold differ. rewrite Hend, Nat.add_0_r, Nat.eqb_refl. reflexivity. }
    destruct fuel; simpl; rewrite Hd; reflexivity.
  - assert (Hd : differ begin1 end1 = true).
    { unfold differ. apply negb_true_iff, Nat.eqb_neq. lia. }
    destruct fuel as [|fuel]; [lia|]. simpl. rewrite Hd.
    destruct (deref_in_range begin1) as [x Hx]; [lia|].
    rewrite Hx. cbn [bind]. unfold range_elements.
    rewrite (skipn_nth_error _ _ _ Hx). cbn [firstn compare_elements].
    destruct (deref begin2) as [y|] eqn:Hy; cbn [bind].
    + rewrite (skipn_nth_error _ _ _ Hy).
      destruct (abs (x - y) > tolerance); [reflexivity|].
      apply (IH fuel (next begin1) (next begin2)); simpl; lia.
    + unfold deref in Hy. apply nth_error_None in Hy.
      rewrite (skipn_all2 _ Hy). reflexivity.
Qed.

Lemma compare_elements_result (tolerance : T) (l1 l2 : list T) :
  (length l1 <= length l2)%nat ->
  compare_elements tolerance l1 l2
  = Some (forallb (close tolerance) (combine l1 l2)).
Proof.
  revert l2. induction l1 as [|x l1 IH]; intros [|y l2] Hlen; simpl in *;
    try reflexivity; try lia.
  unfold close at 1. cbn [fst snd].
  destruct (abs (x - y) > tolerance); simpl; [reflexivity|].
  apply IH. lia.
Qed.

Lemma compare_elements_short (tolerance : T) (l1 l2 : list T) :
  (length l2 < length l1)%nat ->
  compare_elements tolerance l1 l2
  = if forallb (close tolerance) (combine l1 l2) then None else Some false.
Proof.
  revert l2. induction l1 as [|x l1 IH]; intros [|y l2] Hlen; simpl in *;
    try reflexivity; try lia.
  unfold close at 1. cbn [fst snd].
  destruct (abs (x - y) > tolerance); simpl; [reflexivity|].
  apply IH. lia.
Qed.

(** X15: for a first range of [n] elements, the range overload compares
    its elements in order with those that can be read from [begin2] on and
    stops at the first pair that is too far apart.  So an empty first
    range gives [true]; when at least [n] elements can be read the result
    is that all [n] pairs are close; and when fewer can be read the result
    is [false] if one of the pairs read is too far apart and otherwise
    there is none: the loop reads past the end of the second sequence. *)
Theorem approx_equal_iter3_elements (n : nat) (begin1 end1 begin2 : iter T)
    (tolerance : T) :
  pos end1 = (pos begin1 + n)%nat ->
  (pos begin1 + n <= length (seq begin1))%nat ->
  let l1 := range_elements begin1 n in
  let l2 := skipn (pos begin2) (seq begin2) in
  approx_equal_iter3 begin1 end1 begin2 tolerance = compare_elements tolerance l1 l2
  /\ (n = 0%nat -> approx_equal_iter3 begin1 end1 begin2 tolerance = Some true)
  /\ ((n <= length l2)%nat ->
      approx_equal_iter3 begin1 end1 begin2 tolerance
      = Some (forallb (close tolerance) (combine l1 l2)))
  /\ ((length l2 < n)%nat ->
      approx_equal_iter3 begin1 end1 begin2 tolerance
      = if forallb (close tolerance) (combine l1 l2) then None else Some false).
Proof.
  intros Hend Hlen l1 l2.
  assert (Hl1 : length l1 = n).
  { unfold l1, range_elements. rewrite length_firstn, length_skipn. lia. }
  assert (Href : approx_equal_iter3 begin1 end1 begin2 tolerance
                 = compare_elements tolerance l1 l2).
  { unfold approx_equal_iter3. apply approx_equal_loop_elements; try assumption. lia. }
  split; [exact Href|]. rewrite Href. split; [|split].
  - intros ->. destruct l1; [reflexivity | discriminate].
  - intros Hn. apply compare_elements_result. lia.
  - intros Hn. apply compare_elements_short. lia.
Qed.

End RangeFacts.

Section RangeScalarFacts.

Import Equality EqualityOps.
Local Open Scope num_scope.

Lemma close_approx_equal (s : scalar) (tol : carrier s) (xy : carrier s * carrier s) :
  close tol xy = approx_equal (fst xy) (snd xy) tol.
Proof.
  unfold close. rewrite approx_equal_abs, ltb_negb_leb, negb_involutive. reflexivity.
Qed.

(** X16: on the integers and on the rationals the range overload, which
    compares the absolute difference with the tolerance, agrees with the
    overload for two numbers on every pair: for two ranges of [n] elements
    its result is that [approx_equal(x, y, tol)] holds for all pairs. *)
Theorem approx_equal_iter3_pairwise (s : scalar) (n : nat)
    (begin1 end1 begin2 : iter (carrier s)) (tol : carrier s) :
  pos end1 = (pos begin1 + n)%nat ->
  (pos begin1 + n <= length (seq begin1))%nat ->
  (pos begin2 + n <= length (seq begin2))%nat ->
  approx_equal_iter3 begin1 end1 begin2 tol
  = Some (forallb (fun xy => approx_equal (fst xy) (snd xy) tol)
            (combine (range_elements begin1 n) (range_elements begin2 n))).
Proof.
  intros Hend H1 H2. unfold approx_equal_iter3.
  rewrite (approx_equal_loop_spec n _ begin1 end1 begin2 tol Hend H1 H2) by lia.
  f_equal. induction (combine (range_elements begin1 n) (range_elements begin2 n))
    as [|xy l IH]; simpl; [reflexivity|].
  rewrite IH, close_approx_equal. reflexivity.
Qed.

End RangeScalarFacts.

Lemma approx_equal_iter3_elements_witness :
  Equality.approx_equal_iter3
    (Equality.mk_iter [1; 2; 3] 0) (Equality.mk_iter [1; 2; 3] 3)
    (Equality.mk_iter [1; 2] 0) 0 = None.
Proof.
  destruct (approx_equal_iter3_elements 3
              (Equality.mk_iter [1; 2; 3] 0) (Equality.mk_iter [1; 2; 3] 3)
              (Equality.mk_iter [1; 2] 0) 0 eq_refl) as [_ [_ [_ Hshort]]].
  - simpl. lia.
  - rewrite Hshort; [reflexivity | simpl; lia].
Defined.

Lemma approx_equal_iter3_pairwise_witness :
  Equality.approx_equal_iter3
    (Equality.mk_iter [10; 20]%Z 0) (Equality.mk_iter [10; 20]%Z 2)
    (Equality.mk_iter [11; 19]%Z 0) 1%Z = Some true.
Proof.
  apply (approx_equal_iter3_pairwise int_t 2
           (Equality.mk_iter [10; 20]%Z 0) (Equality.mk_iter [10; 20]%Z 2)
           (Equality.mk_iter [11; 19]%Z 0) 1%Z);
    [reflexivity | simpl; lia | simpl; lia].
Defined.
(** * rounded.h: the other functions *)

Module RoundedOps.

Import Rounded.
Local Open Scope num_scope.

Section RoundedOps.

Context {T : Type} `{Number T}.

(** [make_rounded_to_nearest(x, unit)]: the unit is converted to the
    rounding method by the constructor of [round_to_nearest]. *)
Definition make_rounded_to_nearest (x unit : T) : option (rounded T (round_to_nearest T)) :=
  rounded_from x (mk_round_to_nearest unit).

Section Class.

Context {R : Type} `{RoundingMethod T R}.

(** [abs(x)]: [rounded<T,R>(abs(x.value()))] *)
Definition abs_rounded (x : rounded T R) : option (rounded T R) :=
  rounded_of (abs (value x)).

(** [operator >>]: the value read is assigned. *)
Definition read (x : rounded T R) (v : T) : option (rounded T R) := assign x v.

(** [approx_equal], [approx_1] and [approx_0] with an explicit tolerance *)
Definition approx_equal (a b : rounded T R) (tol : T) : bool :=
  Equality.approx_equal (value a) (value b) tol.

Definition approx_1 (x : rounded T R) (tol : T) : bool :=
  EqualityOps.approx_1 (value x) tol.

Definition approx_0 (x : rounded T R) (tol : T) : bool :=
  EqualityOps.approx_0 (value x) tol.

(** The comparisons of a [rounded] with a number and of two [rounded] *)
Definition eq_n (x : rounded T R) (r : T) : bool := value x == r.
Definition n_eq (r : T) (x : rounded T R) : bool := r == value x.
Definition eq (a b : rounded T R) : bool := value a == value b.

Definition ne_n (x : rounded T R) (r : T) : bool := negb (value x == r).
Definition n_ne (r : T) (x : rounded T R) : bool := negb (r == value x).
Definition ne (a b : rounded T R) : bool := negb (value a == value b).

Definition gt_n (x : rounded T R) (r : T) : bool := value x > r.
Definition n_gt (r : T) (x : rounded T R) : bool := r > value x.
Definition gt (a b : rounded T R) : bool := value a > value b.

Definition ge_n (x : rounded T R) (r : T) : bool := value x >= r.
Definition n_ge (r : T) (x : rounded T R) : bool := r >= value x.
Definition ge (a b : rounded T R) : bool := value a >= value b.

Definition lt_n (x : rounded T R) (r : T) : bool := value x < r.
Definition n_lt (r : T) (x : rounded T R) : bool := r < value x.
Definition lt (a b : rounded T R) : bool := value a < value b.

Definition le_n (x : rounded T R) (r : T) : bool := value x <= r.
Definition n_le (r : T) (x : rounded T R) : bool := r <= value x.
Definition le (a b : rounded T R) : bool := value a <= value b.

End Class.

End RoundedOps.

End RoundedOps.

(** * Facts about the other functions of rounded.h *)

Section NearestUnique.

Local Open Scope Z_scope.

(** A multiple that is nearer than half a unit is the nearest one. *)
Lemma Znearest_quot_unique (x u N : Z) :
  0 < u -> 2 * Z.abs (x - N * u) < u -> Znearest_quot x u = N.
Proof.
  intros Hu Hn. destruct (Znearest_quot_spec x u Hu) as [Hq _].
  set (q := Znearest_quot x u) in *.
  assert (Hd : N = q \/ N <= q - 1 \/ q + 1 <= N) by lia.
  destruct Hd as [-> | [Hd | Hd]]; [reflexivity | exfalso; nia | exfalso; nia].
Qed.


Close Scope Z_scope.



End NearestUnique.
(** The index of the multiple of the unit [u] that [x] is rounded to. *)
Definition nearest_index (s : scalar) : carrier s -> carrier s -> Z :=
  match s with
  | int_t => fun u x => Znearest_quot x u
  | real_t => fun u x => Qnearest (x / u)
  end.

Section RoundedOpsFacts.

Import Rounded.
Local Open Scope num_scope.


(** The rounding method with the unit [u] maps [x] to the multiple of [u]
    with the index [nearest_index s u x]. *)
Lemma call_nearest_index (s : scalar) (rm : round_to_nearest (carrier s)) (x : carrier s) :
  (of_int 0 < unit_ rm) = true ->
  exists y, call rm x = Some y
            /\ (y == of_int (nearest_index s (unit_ rm) x) * unit_ rm) = true.
Proof.
  destruct rm as [u]. cbn [unit_ call round_to_nearest_method].
  rewrite round_to_nearest_call_exact. cbn [unit_].
  destruct s; cbn [carrier carrier_Number Z_Number Q_Number remainder sub mul eqb ltb
                   of_int nearest_index] in *; intros Hu.
  - apply Z.ltb_lt in Hu. unfold Zremainder.
    destruct (Z.eqb_spec u 0) as [?|_]; [lia|]. cbn [bind].
    eexists. split; [reflexivity|]. apply Z.eqb_eq. lia.
  - change (inject_Z 0) with 0%Q in Hu. apply Qltb_lt in Hu. unfold Qremainder.
    assert (Hnz : Qeq_bool u 0 = false) by (apply Qeq_bool_false; lra).
    rewrite Hnz. cbn [bind]. eexists. split; [reflexivity|].
    apply Qeq_eq_bool. ring.
Qed.






Lemma store_nearest (s : scalar) (x : rounded (carrier s) (round_to_nearest (carrier s)))
    (v : carrier s) :
  (of_int 0 < unit_ (method x)) = true ->
  exists x', store x v = Some x'
    /\ method x' = method x
    /\ (v_ x' == of_int (nearest_index s (unit_ (method x)) v) * unit_ (method x)) = true.
Proof.
  intros Hu. destruct (call_nearest_index s (method x) v Hu) as [y [Hy Hyn]].
  exists (mk_rounded (method x) y). unfold store, corrected. rewrite Hy.
  repeat split. exact Hyn.
Qed.


(** X18: where the arithmetic is exact, a [rounded] with the method
    [round_to_nearest] stores a whole multiple of the unit of its method:
    after the construction from a raw value, after
    [make_rounded_to_nearest] and after every mutating operation.  So on
    the exact types, and on [long long] for every stored value that, with
    the unit added, stays within [2 ^ 53]; beyond that, [2 ^ 53 + 2] with
    the unit 3 is stored as [2 ^ 53]. *)
Theorem rounded_to_nearest_stores_multiple :
  (forall (s : scalar) (u : carrier s),
      let rm := mk_round_to_nearest u in
      (forall v, exists x n,
          rounded_from v rm = Some x
          /\ RoundedOps.make_rounded_to_nearest v u = Some x
          /\ (value x == of_int n * unit_ rm) = true)
      /\ (forall x m x',
            method x = rm -> after m x = Some x' ->
            method x' = rm /\ exists n, (value x' == of_int n * unit_ rm) = true))
  /\ (forall (u : Z) (v : long_long) (x : rounded long_long (round_to_nearest long_long)),
        (0 < u)%Z ->
        RoundedOps.make_rounded_to_nearest v (LL u) = Some x ->
        (Z.abs (ll (value x)) + u <= 2 ^ 53)%Z ->
        exists n : Z, value x = LL (n * u))
  /\ (forall (u : Z) (x x' : rounded long_long (round_to_nearest long_long))
             (m : mutation long_long (round_to_nearest long_long)),
        (0 < u)%Z ->
        method x = mk_round_to_nearest (LL u) ->
        after m x = Some x' ->
        (Z.abs (ll (value x')) + u <= 2 ^ 53)%Z ->
        exists n : Z, value x' = LL (n * u))
  /\ (option_map value (RoundedOps.make_rounded_to_nearest (LL (2 ^ 53 + 2)) (LL 3))
      = Some (LL (2 ^ 53))
      /\ Z.rem (2 ^ 53) 3 = 2%Z).
Proof.
  split; [|split; [|split; [|split; vm_compute; reflexivity]]].
  - intros s u rm. pose proof (unit_positive s u) as Hpos. fold rm in Hpos. split.
    + intros v. destruct (call_nearest_index s rm v Hpos) as [y [Hy Hyn]].
      exists (mk_rounded rm y), (nearest_index s (unit_ rm) v).
      unfold RoundedOps.make_rounded_to_nearest, rounded_from, corrected_with.
      fold rm. rewrite Hy. repeat split. exact Hyn.
    + intros x m x' Hx Hafter.
      destruct (after_stores m x x' Hafter) as [v Hs].
      rewrite <- Hx in Hpos.
      destruct (store_nearest s x v Hpos) as [x'' [Hs' [Hm Hn]]].
      rewrite Hs in Hs'. injection Hs' as <-.
      rewrite Hm, Hx in *. split; [reflexivity|].
      eexists. exact Hn.
  - intros u [w] x Hu Hx Hb.
    unfold RoundedOps.make_rounded_to_nearest, rounded_from, corrected_with in Hx.
    apply bind_Some in Hx. destruct Hx as [[y] [Hc Hx]]. injection Hx as <-.
    unfold value in *. cbn [v_ ll] in *.
    destruct (long_long_call_multiple u w y Hu Hc Hb) as [n ->].
    exists n. reflexivity.
  - intros u x x' m Hu Hx Hafter Hb.
    destruct (after_stores m x x' Hafter) as [[w] Hs].
    unfold store, corrected in Hs. rewrite Hx in Hs.
    apply bind_Some in Hs. destruct Hs as [[y] [Hc Hs]]. injection Hs as <-.
    unfold value in *. cbn [v_ ll] in *.
    destruct (long_long_call_multiple u w y Hu Hc Hb) as [n ->].
    exists n. reflexivity.
Qed.

End RoundedOpsFacts.


Lemma rounded_to_nearest_stores_multiple_witness :
  exists x' n,
    after (MulAssign 7%Z)
      (Rounded.mk_rounded (Rounded.mk_round_to_nearest 4%Z) 8%Z) = Some x'
    /\ (Rounded.value x' =? n * 4)%Z = true.
Proof.
  destruct (proj2 (proj1 rounded_to_nearest_stores_multiple int_t 4%Z)
              (Rounded.mk_rounded (Rounded.mk_round_to_nearest 4%Z) 8%Z)
              (MulAssign 7%Z)
              (Rounded.mk_rounded (Rounded.mk_round_to_nearest 4%Z) 56%Z))
    as [_ [n Hn]]; [reflexivity | reflexivity |].
  exists (Rounded.mk_rounded (Rounded.mk_round_to_nearest 4%Z) 56%Z), n.
  split; [reflexivity | exact Hn].
Defined.
Section RoundedStepFacts.

Import Rounded.
Local Open Scope num_scope.



Lemma multiple_shift (s : scalar) (u v : carrier s) (n k : Z) :
  (v == of_int n * u) = true ->
  (v + of_int k * u == of_int (n + k) * u) = true.
Proof.
  destruct s; cbn [carrier carrier_Number Z_Number Q_Number add mul eqb of_int] in *.
  - rewrite !Z.eqb_eq. intros ->. lia.
  - intros Hv. apply Qeq_bool_eq in Hv. apply Qeq_eq_bool.
    rewrite Hv, inject_Z_plus. ring.
Qed.


(** X20: where the arithmetic is exact, adding a whole multiple of the
    unit to a [rounded] with the method [round_to_nearest] that stores a
    multiple of its unit is exact: on the exact types, and on [long long]
    within [2 ^ 53].  On [double] it is not: with the unit 0.3, 47.1 is
    157 units, and adding 35 units stores 57.599999999999994, which is not
    the sum 57.6. *)
Theorem rounded_add_multiple_exact :
  (forall (s : scalar) (u : carrier s) (n k : Z)
          (x : rounded (carrier s) (round_to_nearest (carrier s))),
      let rm := mk_round_to_nearest u in
      method x = rm ->
      (value x == of_int n * unit_ rm) = true ->
      exists x',
        add_assign x (of_int k * unit_ rm) = Some x'
        /\ (value x' == value x + of_int k * unit_ rm) = true)
  /\ (forall (u n k : Z) (x : rounded long_long (round_to_nearest long_long)),
        (0 < u)%Z ->
        (Z.abs ((n + k) * u) + u <= 2 ^ 53)%Z ->
        method x = mk_round_to_nearest (LL u) ->
        value x = LL (n * u) ->
        exists x',
          add_assign x (LL (k * u)) = Some x'
          /\ value x' = LL (n * u + k * u))
  /\ (exists x x' : rounded double (round_to_nearest double),
        rounded_from 0x1.78ccccccccccdp+5%float
          (mk_round_to_nearest 0x1.3333333333333p-2%float) = Some x
        /\ value x = 0x1.78ccccccccccdp+5%float
        /\ (value x == of_int 157 * 0x1.3333333333333p-2%float) = true
        /\ add_assign x (of_int 35 * 0x1.3333333333333p-2%float) = Some x'
        /\ value x' = 0x1.cccccccccccccp+5%float
        /\ value x + of_int 35 * 0x1.3333333333333p-2%float = 0x1.ccccccccccccdp+5%float).
Proof.
  split; [|split].
  - intros s u n k x rm Hx Hn. pose proof (unit_positive s u) as Hpos. fold rm in Hpos.
    pose proof (multiple_shift s (unit_ rm) (v_ x) n k Hn) as Hshift.
    destruct (multiple_fixed s _ _ _ Hpos Hshift) as [r [Hr Hfix]].
    unfold add_assign, store, corrected. rewrite Hx.
    cbn [call round_to_nearest_method]. rewrite round_to_nearest_call_exact.
    fold rm. rewrite Hr. cbn [bind]. eexists. split; [reflexivity|]. exact Hfix.
  - intros u n k [rm [v]] Hu Hb Hx Hv. unfold value in Hv. cbn [method v_] in *.
    injection Hv as ->. subst rm.
    unfold add_assign, store, corrected. cbn [method v_].
    change (LL (n * u) + LL (k * u)) with (LL (n * u + k * u)).
    replace (n * u + k * u)%Z with ((n + k) * u)%Z by lia.
    rewrite long_long_call_nearest by assumption.
    rewrite Znearest_quot_multiple by exact Hu.
    cbn [bind]. eexists. split; reflexivity.
  - do 2 eexists.
    repeat (split; [vm_compute; reflexivity|]). vm_compute. reflexivity.
Qed.


(** X22: with the method [round_to_nearest_int] on an integral type the
    conditional [is_integral ? x : nearbyint(x)] has the type [double], so
    that a value is stored after a conversion to [double] and back.  Where
    that conversion is exact, a [rounded] behaves as the number it stores:
    the constructor stores the raw value and every mutating operation the
    raw result.  On [long long] that is so up to [2 ^ 53]; beyond, the
    value is rounded, [2 ^ 53 + 1] to [2 ^ 53]. *)
Theorem rounded_to_nearest_int_transparent :
  (forall (v : Z) (x o : rounded Z round_to_nearest_int),
      let mk := mk_rounded (method x) in
      rounded_of v = Some (mk_rounded mk_round_to_nearest_int v)
      /\ assign x v = Some (mk v)
      /\ add_assign x v = Some (mk (v_ x + v)%Z)
      /\ sub_assign x v = Some (mk (v_ x - v)%Z)
      /\ mul_assign x v = Some (mk (v_ x * v)%Z)
      /\ div_assign x v = option_map mk (Zdiv_opt (v_ x) v)
      /\ pre_inc x = Some (mk (v_ x + 1)%Z)
      /\ pre_dec x = Some (mk (v_ x - 1)%Z)
      /\ post_inc x = Some (x, mk (v_ x + 1)%Z)
      /\ post_dec x = Some (x, mk (v_ x - 1)%Z)
      /\ add_assign_r x o = Some (mk (v_ x + v_ o)%Z)
      /\ sub_assign_r x o = Some (mk (v_ x - v_ o)%Z)
      /\ mul_assign_r x o = Some (mk (v_ x * v_ o)%Z)
      /\ div_assign_r x o = option_map mk (Zdiv_opt (v_ x) (v_ o))
      /\ mod_assign_r x o = option_map mk (Zmod_opt (v_ x) (v_ o)))
  /\ (forall (v : Z) (x : rounded long_long round_to_nearest_int),
        let mk := fun w => mk_rounded (method x) (LL (round_to_double w)) in
        rounded_of (LL v) = Some (mk_rounded mk_round_to_nearest_int (LL (round_to_double v)))
        /\ assign x (LL v) = Some (mk v)
        /\ add_assign x (LL v) = Some (mk (ll (v_ x) + v)%Z)
        /\ sub_assign x (LL v) = Some (mk (ll (v_ x) - v)%Z)
        /\ mul_assign x (LL v) = Some (mk (ll (v_ x) * v)%Z)
        /\ pre_inc x = Some (mk (ll (v_ x) + 1)%Z)
        /\ pre_dec x = Some (mk (ll (v_ x) - 1)%Z))
  /\ (forall v : Z, (Z.abs v <= 2 ^ 53)%Z -> round_to_double v = v)
  /\ round_to_double (2 ^ 53 + 1) = (2 ^ 53)%Z
  /\ option_map value (rounded_of (R := round_to_nearest_int) (LL (2 ^ 53 + 1)))
     = Some (LL (2 ^ 53)).
Proof.
  split; [|split; [|split; [|split; vm_compute; reflexivity]]].
  - intros v x o mk. repeat split.
  - intros v x mk. repeat split.
  - exact round_to_double_exact.
Qed.

(** X23: [abs] builds its result with a default-constructed rounding
    method, as unary minus does: for [round_to_nearest] the result has the
    unit 1 (integral) or epsilon whatever the unit of the operand, and on an
    integral type it stores the absolute value itself. *)
Theorem abs_default_method :
  (forall (s : scalar) (x : rounded (carrier s) (round_to_nearest (carrier s))),
      exists y,
        RoundedOps.abs_rounded x = Some y
        /\ method y = mk_round_to_nearest (of_int 0)
        /\ unit_ (method y) = if is_integral (T := carrier s) then of_int 1 else epsilon)
  /\ (forall (x : rounded Z (round_to_nearest Z)),
        exists y, RoundedOps.abs_rounded x = Some y /\ value y = Z.abs (value x))
  /\ (exists x y y1 : rounded Z (round_to_nearest Z),
        rounded_from (-10)%Z (mk_round_to_nearest 4%Z) = Some x
        /\ value x = (-8)%Z
        /\ RoundedOps.abs_rounded x = Some y
        /\ add_assign y 1%Z = Some y1
        /\ value y1 = 9%Z).
Proof.
  split; [|split].
  - intros s x.
    destruct (rounded_from_corrected s _ _ (mk_round_to_nearest (of_int 0))
                (abs (value x)) (nearest_object s (of_int 0)))
      as [y [Hy [Hm _]]].
    exists y. split; [exact Hy|]. split; [exact Hm|].
    rewrite Hm. destruct s; reflexivity.
  - intros x. unfold RoundedOps.abs_rounded, rounded_of, rounded_from, corrected_with.
    cbn [default_method call round_to_nearest_method].
    unfold round_to_nearest_call. cbn [remainder Z_Number]. unfold Zremainder.
    cbn. eexists. split; [reflexivity|]. unfold value. cbn [v_].
    assert (Hq : Znearest_quot (Z.abs (v_ x)) 1 = Z.abs (v_ x)).
    { apply Znearest_quot_unique; [lia|].
      replace (Z.abs (v_ x) - Z.abs (v_ x) * 1)%Z with 0%Z by lia.
      reflexivity. }
    rewrite Hq. lia.
  - do 3 eexists. repeat split.
Qed.

End RoundedStepFacts.


Lemma rounded_add_multiple_exact_witness :
  exists x',
    Rounded.add_assign (Rounded.mk_rounded (Rounded.mk_round_to_nearest 5%Z) 10%Z)
      (3 * 5)%Z = Some x'
    /\ (Rounded.value x' =? 10 + 3 * 5)%Z = true.
Proof.
  apply (proj1 rounded_add_multiple_exact int_t 5%Z 2%Z 3%Z
           (Rounded.mk_rounded (Rounded.mk_round_to_nearest 5%Z) 10%Z));
    reflexivity.
Defined.

Lemma rounded_to_nearest_int_transparent_witness :
  round_to_double 1000 = 1000%Z.
Proof.
  apply (proj1 (proj2 (proj2 rounded_to_nearest_int_transparent))). simpl. lia.
Defined.

(** * dual_quaternion.h *)

Module DualQuaternion.

Local Open Scope num_scope.

Section DualQuaternion.

Context {T : Type} `{Number T}.

(** Modelled from the spec: the classes [dual<T>] and [quaternion<T>],
    whose headers are not among the sources; a dual number is built from
    its real and its dual part, a quaternion from its real part and its
    three imaginary parts, and the members read them. *)
Record dual : Type := mk_dual { dual_real : T; dual_imag : T }.

Record quaternion (C : Type) : Type :=
  mk_quaternion { real : C; imag_i : C; imag_j : C; imag_k : C }.

Arguments mk_quaternion {C} _ _ _ _.
Arguments real {C} _.
Arguments imag_i {C} _.
Arguments imag_j {C} _.
Arguments imag_k {C} _.

(** [dual_quaternion<T>] is [quaternion<dual<T>>]. *)
Definition dual_quaternion : Type := quaternion dual.

Definition dual_conj (q : dual_quaternion) : dual_quaternion :=
  mk_quaternion
    (mk_dual (dual_real (real q)) (- dual_imag (real q)))
    (mk_dual (dual_real (imag_i q)) (- dual_imag (imag_i q)))
    (mk_dual (dual_real (imag_j q)) (- dual_imag (imag_j q)))
    (mk_dual (dual_real (imag_k q)) (- dual_imag (imag_k q))).

Definition full_conj (q : dual_quaternion) : dual_quaternion :=
  mk_quaternion
    (mk_dual (dual_real (real q)) (- dual_imag (real q)))
    (mk_dual (- dual_real (imag_i q)) (dual_imag (imag_i q)))
    (mk_dual (- dual_real (imag_j q)) (dual_imag (imag_j q)))
    (mk_dual (- dual_real (imag_k q)) (dual_imag (imag_k q))).

(** [real(dq)] and [imag(dq)]: the real and the dual part *)
Definition real_part (dq : dual_quaternion) : quaternion T :=
  mk_quaternion (dual_real (real dq)) (dual_real (imag_i dq))
                (dual_real (imag_j dq)) (dual_real (imag_k dq)).

Definition dual_part (dq : dual_quaternion) : quaternion T :=
  mk_quaternion (dual_imag (real dq)) (dual_imag (imag_i dq))
                (dual_imag (imag_j dq)) (dual_imag (imag_k dq)).

Definition make_dual_quaternion (aw ax ay az bw bx by_ bz : T) : dual_quaternion :=
  mk_quaternion (mk_dual aw bw) (mk_dual ax bx) (mk_dual ay by_) (mk_dual az bz).

(** [make_dual(real, imag)] *)
Definition make_dual (re im : quaternion T) : dual_quaternion :=
  mk_quaternion (mk_dual (real re) (real im)) (mk_dual (imag_i re) (imag_i im))
                (mk_dual (imag_j re) (imag_j im)) (mk_dual (imag_k re) (imag_k im)).

End DualQuaternion.

Arguments mk_quaternion {C} _ _ _ _.
Arguments real {C} _.
Arguments imag_i {C} _.
Arguments imag_j {C} _.
Arguments imag_k {C} _.
Arguments dual T : clear implicits.
Arguments dual_quaternion T : clear implicits.

End DualQuaternion.

(** * Facts about dual_quaternion.h *)

Section DualQuaternionFacts.

Import DualQuaternion.
Local Open Scope num_scope.

Lemma neg_involutive (s : scalar) (x : carrier s) : - - x = x.
Proof.
  destruct s; cbn [carrier carrier_Number Z_Number Q_Number neg] in *.
  - apply Z.opp_involutive.
  - destruct x as [n d]. unfold Qopp. cbn [Qnum Qden]. rewrite Z.opp_involutive.
    reflexivity.
Qed.

(** X26: a dual quaternion is made of its real and its dual part:
    [make_dual] of the two parts gives it back, and the parts of
    [make_dual(re, im)] are [re] and [im]; [make_dual_quaternion] takes the
    four components of the real part first. *)
Theorem make_dual_parts (T : Type) (N : Number T) (dq : dual_quaternion T)
    (re im : quaternion T) (aw ax ay az bw bx by_ bz : T) :
  make_dual (real_part dq) (dual_part dq) = dq
  /\ real_part (make_dual re im) = re
  /\ dual_part (make_dual re im) = im
  /\ make_dual_quaternion aw ax ay az bw bx by_ bz
     = make_dual (mk_quaternion aw ax ay az) (mk_quaternion bw bx by_ bz).
Proof.
  destruct dq as [[] [] [] []]. destruct re, im. repeat split.
Qed.

(** X27: on the integers and on the rationals the two conjugations are
    involutions and commute; the dual conjugation keeps the real part and
    negates the dual part. *)
Theorem conjugations_involutive (s : scalar) (dq : dual_quaternion (carrier s)) :
  dual_conj (dual_conj dq) = dq
  /\ full_conj (full_conj dq) = dq
  /\ dual_conj (full_conj dq) = full_conj (dual_conj dq)
  /\ real_part (dual_conj dq) = real_part dq
  /\ dual_part (dual_conj dq)
     = mk_quaternion (- real (dual_part dq)) (- imag_i (dual_part dq))
                     (- imag_j (dual_part dq)) (- imag_k (dual_part dq)).
Proof.
  destruct dq as [[a0 b0] [a1 b1] [a2 b2] [a3 b3]].
  unfold dual_conj, full_conj, real_part, dual_part.
  cbn [real imag_i imag_j imag_k dual_real dual_imag].
  rewrite !neg_involutive. repeat split.
Qed.

End DualQuaternionFacts.
